(** * GoTracing: the rendering core, embedded over IEEE binary64 floats.

    Go's [float64] is modelled by Rocq's primitive floats, which are
    IEEE 754 binary64 with round-to-nearest-even: [+], [-], [*], [/],
    [math.Sqrt] and [math.Abs] are the primitive operations, comparisons
    are [<?] and [<=?] (false on NaN), so that division by zero, infinities
    and NaN behave as they do in the Go program.  Every operation is rounded
    on its own, as in a build for amd64; the language lets a compiler fuse
    [x*y + z] into one operation with a single rounding (as on arm64), which
    the embedding does not model.  Go's [int] is [BinNums.Z].
    Pointers to values that are never mutated after construction are
    modelled by the values themselves; a [nil] result is [None]. *)

From Stdlib Require Import Floats ZArith List Bool Lia.
Import ListNotations.

#[local] Set Warnings "-inexact-float".
#[local] Open Scope float_scope.

(** Go's [int]. *)
Abbreviation int := BinNums.Z (only parsing).

(* ================================================================= *)
(** ** package material: the data part *)

Record Color := mkColor { R : float; G : float; B : float }.

Record Material := mkMaterial {
  Mat_Color : Color;
  Reflectivity : float;
  Transparency : float;
  RefractiveIndex : float;
  AmbientCoefficient : float;
  DiffuseCoefficient : float;
  SpecularCoefficient : float;
  Shininess : float
}.

(* ================================================================= *)
(** ** package geometry *)

Record Vector := mkVector { X : float; Y : float; Z : float }.

Definition Add (v w : Vector) : Vector :=
  mkVector (X v + X w) (Y v + Y w) (Z v + Z w).

Definition Subtract (v w : Vector) : Vector :=
  mkVector (X v - X w) (Y v - Y w) (Z v - Z w).

Definition Scale (v : Vector) (s : float) : Vector :=
  mkVector (X v * s) (Y v * s) (Z v * s).

Definition Dot (v w : Vector) : float :=
  X v * X w + Y v * Y w + Z v * Z w.

Definition Cross (v w : Vector) : Vector :=
  mkVector (Y v * Z w - Z v * Y w)
           (Z v * X w - X v * Z w)
           (X v * Y w - Y v * X w).

Definition Length (v : Vector) : float :=
  PrimFloat.sqrt (X v * X v + Y v * Y v + Z v * Z v).

Definition Normalize (v : Vector) : Vector :=
  let len := Length v in
  mkVector (X v / len) (Y v / len) (Z v / len).

Record Ray := mkRay { Origin : Vector; Direction : Vector }.

Definition At (r : Ray) (t : float) : Vector :=
  Add (Origin r) (Scale (Direction r) t).

Record Sphere := mkSphere {
  Sphere_Center : Vector;
  Sphere_Radius : float;
  Sphere_Mat : Material
}.

Record Plane := mkPlane {
  Plane_Point : Vector;
  Plane_Normal : Vector;
  Plane_Mat : Material
}.

Record Triangle := mkTriangle {
  V0 : Vector;
  V1 : Vector;
  V2 : Vector;
  Triangle_Mat : Material
}.

Record Cylinder := mkCylinder {
  Cylinder_Center : Vector;
  Cylinder_Radius : float;
  Cylinder_Mat : Material
}.

Record Cube := mkCube {
  Cube_Center : Vector;
  Cube_Length : float;
  Cube_Mat : Material
}.

(** The interface [Object] with its five implementations. *)
Inductive Object :=
| ObjSphere (s : Sphere)
| ObjPlane (p : Plane)
| ObjTriangle (t : Triangle)
| ObjCylinder (c : Cylinder)
| ObjCube (c : Cube).

Record Hit := mkHit {
  Position : Vector;
  Normal : Vector;
  T : float;
  Obj : Object
}.

(** The threshold [0.0001] of the plane and triangle tests. *)
Definition epsilon : float := 0.0001.

(** *** Sphere *)

Definition Sphere_discriminant (s : Sphere) (ray : Ray) : float :=
  let oc := Subtract (Origin ray) (Sphere_Center s) in
  let a := Dot (Direction ray) (Direction ray) in
  let b := 2 * Dot oc (Direction ray) in
  let c := Dot oc oc - Sphere_Radius s * Sphere_Radius s in
  b * b - 4 * a * c.

Definition Sphere_Intersect (s : Sphere) (ray : Ray) : option Hit :=
  let oc := Subtract (Origin ray) (Sphere_Center s) in
  let a := Dot (Direction ray) (Direction ray) in
  let b := 2 * Dot oc (Direction ray) in
  let c := Dot oc oc - Sphere_Radius s * Sphere_Radius s in
  let discriminant := b * b - 4 * a * c in
  if discriminant <? 0 then None
  else
    let t := (- b - PrimFloat.sqrt discriminant) / (2 * a) in
    let position := At ray t in
    let normal := Normalize (Subtract position (Sphere_Center s)) in
    Some (mkHit position normal t (ObjSphere s)).

(** *** Plane *)

Definition Plane_Intersect (p : Plane) (ray : Ray) : option Hit :=
  let denom := Dot (Plane_Normal p) (Direction ray) in
  if 0.0001 <? PrimFloat.abs denom then
    let t := Dot (Subtract (Plane_Point p) (Origin ray)) (Plane_Normal p) / denom in
    if 0 <=? t then
      let position := At ray t in
      Some (mkHit position (Plane_Normal p) t (ObjPlane p))
    else None
  else None.

(** *** Triangle (Moller-Trumbore) *)

Definition Triangle_Intersect (t : Triangle) (ray : Ray) : option Hit :=
  let edge1 := Subtract (V1 t) (V0 t) in
  let edge2 := Subtract (V2 t) (V0 t) in
  let h := Cross (Direction ray) edge2 in
  let a := Dot edge1 h in
  if PrimFloat.abs a <? 0.0001 then None
  else
    let f := 1 / a in
    let s := Subtract (Origin ray) (V0 t) in
    let u := f * Dot s h in
    if (u <? 0) || (1 <? u) then None
    else
      let q := Cross s edge1 in
      let v := f * Dot (Direction ray) q in
      if (v <? 0) || (1 <? u + v) then None
      else
        let tt := f * Dot edge2 q in
        if 0.0001 <? tt then
          let position := At ray tt in
          let normal := Normalize (Cross edge1 edge2) in
          Some (mkHit position normal tt (ObjTriangle t))
        else None.

(** *** Cylinder (infinite, along the y axis) *)

(** [oc.Y = 0] and [normal.Y = 0]: assignment to a field of a fresh vector. *)
Definition set_Y (v : Vector) (y : float) : Vector := mkVector (X v) y (Z v).

Definition Cylinder_discriminant (c : Cylinder) (ray : Ray) : float :=
  let oc := set_Y (Subtract (Origin ray) (Cylinder_Center c)) 0 in
  let a := X (Direction ray) * X (Direction ray) + Z (Direction ray) * Z (Direction ray) in
  let b := 2 * Dot oc (Direction ray) in
  let cval := Dot oc oc - Cylinder_Radius c * Cylinder_Radius c in
  b * b - 4 * a * cval.

Definition Cylinder_Intersect (c : Cylinder) (ray : Ray) : option Hit :=
  let oc := set_Y (Subtract (Origin ray) (Cylinder_Center c)) 0 in
  let a := X (Direction ray) * X (Direction ray) + Z (Direction ray) * Z (Direction ray) in
  let b := 2 * Dot oc (Direction ray) in
  let cval := Dot oc oc - Cylinder_Radius c * Cylinder_Radius c in
  let discriminant := b * b - 4 * a * cval in
  if discriminant <? 0 then None
  else
    let t := (- b - PrimFloat.sqrt discriminant) / (2 * a) in
    let position := At ray t in
    let normal := set_Y (Subtract position (Cylinder_Center c)) 0 in
    let normal := Normalize normal in
    Some (mkHit position normal t (ObjCylinder c)).

(** *** Cube (axis-aligned slab test) *)

Definition Cube_min (cube : Cube) : Vector :=
  Subtract (Cube_Center cube)
    (mkVector (Cube_Length cube / 2) (Cube_Length cube / 2) (Cube_Length cube / 2)).

Definition Cube_max (cube : Cube) : Vector :=
  Add (Cube_Center cube)
    (mkVector (Cube_Length cube / 2) (Cube_Length cube / 2) (Cube_Length cube / 2)).

(** [if lo > hi { lo, hi = hi, lo }] *)
Definition swap_if_gt (lo hi : float) : float * float :=
  if hi <? lo then (hi, lo) else (lo, hi).

(** The part of [Cube.Intersect] before [t := tmin]: the final [tmin] and
    [tmax] of the intersected slab intervals, [None] at an early
    [return nil]. *)
Definition Cube_slabs (cube : Cube) (ray : Ray) : option (float * float) :=
  let min := Cube_min cube in
  let max := Cube_max cube in
  let tmin := (X min - X (Origin ray)) / X (Direction ray) in
  let tmax := (X max - X (Origin ray)) / X (Direction ray) in
  let '(tmin, tmax) := swap_if_gt tmin tmax in
  let tymin := (Y min - Y (Origin ray)) / Y (Direction ray) in
  let tymax := (Y max - Y (Origin ray)) / Y (Direction ray) in
  let '(tymin, tymax) := swap_if_gt tymin tymax in
  if (tymax <? tmin) || (tmax <? tymin) then None
  else
    let tmin := if tmin <? tymin then tymin else tmin in
    let tmax := if tymax <? tmax then tymax else tmax in
    let tzmin := (Z min - Z (Origin ray)) / Z (Direction ray) in
    let tzmax := (Z max - Z (Origin ray)) / Z (Direction ray) in
    let '(tzmin, tzmax) := swap_if_gt tzmin tzmax in
    if (tzmax <? tmin) || (tmax <? tzmin) then None
    else
      let tmin := if tmin <? tzmin then tzmin else tmin in
      let tmax := if tzmax <? tmax then tzmax else tmax in
      Some (tmin, tmax).

(** The table [normals] of [Cube.NormalAt]. *)
Definition normals : list Vector :=
  [ mkVector (-1) 0 0; mkVector 1 0 0;
    mkVector 0 (-1) 0; mkVector 0 1 0;
    mkVector 0 0 (-1); mkVector 0 0 1 ].

(** The table [sides] of [Cube.NormalAt]: the distance of [point] to each
    of the six face planes, in the order of [normals]. *)
Definition sides (cube : Cube) (point : Vector) : list float :=
  let min := Cube_min cube in
  let max := Cube_max cube in
  [ PrimFloat.abs (X min - X point); PrimFloat.abs (X max - X point);
    PrimFloat.abs (Y min - Y point); PrimFloat.abs (Y max - Y point);
    PrimFloat.abs (Z min - Z point); PrimFloat.abs (Z max - Z point) ].

(** The loop [for i := 1; i < len(sides); i++] of [Cube.NormalAt], run on
    the remaining entries [rest], which start at index [i]. *)
Fixpoint argmin_loop (rest : list float) (i : nat) (minIndex : nat) (minValue : float)
  : nat * float :=
  match rest with
  | [] => (minIndex, minValue)
  | x :: rest' =>
      if x <? minValue then argmin_loop rest' (S i) i x
      else argmin_loop rest' (S i) minIndex minValue
  end.

Definition argmin (l : list float) : nat :=
  match l with
  | [] => 0%nat
  | x :: rest => fst (argmin_loop rest 1 0 x)
  end.

Definition Cube_NormalAt (cube : Cube) (point : Vector) : Vector :=
  nth (argmin (sides cube point)) normals (mkVector 0 0 0).

Definition Cube_Intersect (cube : Cube) (ray : Ray) : option Hit :=
  match Cube_slabs cube ray with
  | None => None
  | Some (tmin, tmax) =>
      let t := tmin in
      match (if t <? 0 then let t := tmax in if t <? 0 then None else Some t
             else Some t) with
      | None => None
      | Some t =>
          let position := At ray t in
          let normal := Cube_NormalAt cube position in
          Some (mkHit position normal t (ObjCube cube))
      end
  end.

(** Dynamic dispatch through the [Object] interface. *)
Definition Intersect (o : Object) (ray : Ray) : option Hit :=
  match o with
  | ObjSphere s => Sphere_Intersect s ray
  | ObjPlane p => Plane_Intersect p ray
  | ObjTriangle t => Triangle_Intersect t ray
  | ObjCylinder c => Cylinder_Intersect c ray
  | ObjCube c => Cube_Intersect c ray
  end.

Definition Object_Material (o : Object) : Material :=
  match o with
  | ObjSphere s => Sphere_Mat s
  | ObjPlane p => Plane_Mat p
  | ObjTriangle t => Triangle_Mat t
  | ObjCylinder c => Cylinder_Mat c
  | ObjCube c => Cube_Mat c
  end.

(* ================================================================= *)
(** ** package utility *)

Definition Clamp (value min max : float) : float :=
  if value <? min then min
  else if max <? value then max
  else value.

Definition Lerp (a b t : float) : float := (1 - t) * a + t * b.

Definition Reflect (v n : Vector) : Vector :=
  Subtract v (Scale n (2 * Dot v n)).

(** [Refract] returns the refracted vector and whether total internal
    reflection occurred; the vector is [nil] in that case. *)
Definition Refract (v n : Vector) (refractiveIndex : float) : option Vector * bool :=
  let dt := Dot v n in
  let discriminant := 1 - refractiveIndex * refractiveIndex * (1 - dt * dt) in
  if 0 <? discriminant then
    let refracted :=
      Subtract (Scale v refractiveIndex)
               (Scale n (refractiveIndex * dt + PrimFloat.sqrt discriminant)) in
    (Some refracted, false)
  else (None, true).

(* ================================================================= *)
(** ** package material: colours, lights and the shading model *)

(** Modelled from the spec: [Color.Scale] and [Color.Add] are called by
    [ComputeColor] and [traceRay] but are not defined in the source files.
    An RGB triple is scaled and added componentwise (sections 4.4 and 4.5:
    "materialColor x ambientCoefficient", "scale the recursive result by
    reflectivity, and add to the local color"). *)
Definition Color_Scale (c : Color) (s : float) : Color :=
  mkColor (R c * s) (G c * s) (B c * s).

Definition Color_Add (c d : Color) : Color :=
  mkColor (R c + R d) (G c + G d) (B c + B d).

(** [&material.Color{0, 0, 0}] *)
Definition black : Color := mkColor 0 0 0.

(** Modelled from the spec: the type [material.Light] is used by the scene
    but not declared in the source files: a light has a position and a
    color (section 3). *)
Record Light := mkLight { Light_Position : Vector; Light_Color : Color }.

(** Modelled from the spec: [Vector.Negate] and the method [Vector.Reflect]
    are called by [ComputeColor] but not defined in the source files: the
    negated vector, and "the reflection of the negated light direction about
    the surface normal" (section 4.4), computed as [utility.Reflect] does. *)
Definition Negate (v : Vector) : Vector := mkVector (- X v) (- Y v) (- Z v).

Definition Vector_Reflect (v normal : Vector) : Vector := Reflect v normal.

Definition min (a b : float) : float := if a <? b then a else b.

Definition max (a b : float) : float := if b <? a then a else b.

(** Modelled from the spec: the type [geometry.Camera] is not declared in
    the source files.  [GetRay(u, v)] maps a screen coordinate to a ray and
    fails only on an invalid camera configuration (section 6); a failure
    ([err != nil]) is [None]. *)
Record Camera := mkCamera { GetRay : float -> float -> option Ray }.

(** package scene *)
Record Scene := mkScene {
  Objects : list Object;
  Lights : list Light;
  Scene_Camera : Camera
}.

Definition NewScene (camera : Camera) : Scene := mkScene [] [] camera.

Definition AddObject (s : Scene) (object : Object) : Scene :=
  mkScene (Objects s ++ [object]) (Lights s) (Scene_Camera s).

Definition AddLight (s : Scene) (light : Light) : Scene :=
  mkScene (Objects s) (Lights s ++ [light]) (Scene_Camera s).

(** [FindClosestIntersection] returns [&object], the address of the
    variable of its [range] loop.  What that variable holds once the loop is
    over depends on the language version that the module declares in
    [go.mod], which is not among the source files: from Go 1.22 on every
    iteration has a variable of its own, before that one variable serves the
    whole loop and is overwritten by every iteration. *)
Inductive LoopVar := PerIteration | PerLoop.

(** The state of the loop of [FindClosestIntersection].  The pointer
    [closestObject] is represented by the shape that the loop variable held
    when its address was taken. *)
Record Closest := mkClosest {
  closestHit : option Hit;
  closestObject : option Object;
  closestDistance : float
}.

(** One iteration of [for _, object := range s.Objects]. *)
Definition closest_step (ray : Ray) (st : Closest) (object : Object) : Closest :=
  match Intersect object ray with
  | Some hit =>
      if T hit <? closestDistance st
      then mkClosest (Some hit) (Some object) (T hit)
      else st
  | None => st
  end.

(** What the pointer [&object] designates once the loop is over: the shape
    of the iteration that took the address, or the shape of the last
    iteration when one variable serves the whole loop. *)
Definition deref (loopvar : LoopVar) (objects : list Object) (object : Object) : Object :=
  match loopvar with
  | PerIteration => object
  | PerLoop => last objects object
  end.

Definition FindClosestIntersection (loopvar : LoopVar) (s : Scene) (ray : Ray)
  : option Hit * option Object :=
  let st := fold_left (closest_step ray) (Objects s) (mkClosest None None infinity) in
  (closestHit st, option_map (deref loopvar (Objects s)) (closestObject st)).

(** The same loop with its variable in memory.  [closestObject = &object]
    takes the address of the loop variable, and the caller reads the
    variable through that pointer once the loop is over.  The variables
    that the loop declares are kept in a store, and a pointer is the
    position of a variable in the store. *)
Record Loop := mkLoop {
  variables : list Object;
  loop_closestHit : option Hit;
  loop_closestObject : option nat;
  loop_closestDistance : float
}.

(** The head of an iteration assigns the element of the collection to the
    loop variable [object]: a new variable in every iteration, or the one
    variable of the loop, which is overwritten.  The result is the store and
    the address of [object]. *)
Definition declare (loopvar : LoopVar) (vars : list Object) (element : Object)
  : list Object * nat :=
  match loopvar with
  | PerIteration => (vars ++ [element], length vars)
  | PerLoop => ([element], 0%nat)
  end.

(** The body of the loop: [object.Intersect(ray)] reads the variable, and
    [&object] is its address. *)
Definition loop_step (loopvar : LoopVar) (ray : Ray) (st : Loop) (element : Object) : Loop :=
  let '(vars, object) := declare loopvar (variables st) element in
  match nth_error vars object with
  | Some shape =>
      match Intersect shape ray with
      | Some hit =>
          if T hit <? loop_closestDistance st
          then mkLoop vars (Some hit) (Some object) (T hit)
          else mkLoop vars (loop_closestHit st) (loop_closestObject st)
                      (loop_closestDistance st)
      | None => mkLoop vars (loop_closestHit st) (loop_closestObject st)
                       (loop_closestDistance st)
      end
  | None => mkLoop vars (loop_closestHit st) (loop_closestObject st)
                   (loop_closestDistance st)
  end.

(** The hit and what the caller reads through the pointer returned. *)
Definition FindClosestIntersection_memory (loopvar : LoopVar) (s : Scene) (ray : Ray)
  : option Hit * option Object :=
  let st := fold_left (loop_step loopvar ray) (Objects s) (mkLoop [] None None infinity) in
  (loop_closestHit st,
   match loop_closestObject st with
   | Some object => nth_error (variables st) object
   | None => None
   end).

Section Tracer.

Variable loopvar : LoopVar.

(** [math.Pow], from Go's standard library. *)
Variable pow : float -> float -> float.

(** The origin given to a ray spawned at a surface from the incoming ray
    and the surface normal: [Ray.Reflect] and [Ray.Refract] are not
    among the source files and their signatures do not receive the hit
    point. *)
Variable spawn_origin : Ray -> Vector -> Vector.

(** The index that the refraction formula is given for a material's
    [RefractiveIndex] and the [inside] flag that [traceRay] passes to
    [Ray.Refract]: Snell's law takes the ratio of the indices of the medium
    the ray leaves and the medium it enters, which depends on the side the
    ray is on; neither the source files nor the specification say how the
    flag selects it. *)
Variable relative_index : float -> bool -> float.

(** The contribution of one light, the body of the loop of [ComputeColor]. *)
Definition lightContribution (m : Material) (hit : Hit) (ray : Ray) (light : Light) : Color :=
  let lightDirection := Subtract (Light_Position light) (Position hit) in
  let distance := Length lightDirection in
  let lightDirection := Normalize lightDirection in
  let attenuation := 1 / (1 + 0.1 * distance) in
  let diffuse :=
    Color_Scale (Mat_Color m)
      (DiffuseCoefficient m * max 0 (Dot (Normal hit) lightDirection)) in
  let reflectDirection := Vector_Reflect (Negate lightDirection) (Normal hit) in
  let viewDirection := Negate (Direction ray) in
  let specular :=
    Color_Scale (Light_Color light)
      (SpecularCoefficient m * pow (max 0 (Dot viewDirection reflectDirection)) (Shininess m)) in
  Color_Scale (Color_Add diffuse specular) attenuation.

Definition ComputeColor (m : Material) (hit : Hit) (s : Scene) (ray : Ray) : Color :=
  let color := Color_Scale (Mat_Color m) (AmbientCoefficient m) in
  let color :=
    fold_left (fun color light => Color_Add color (lightContribution m hit ray light))
              (Lights s) color in
  mkColor (min 1 (R color)) (min 1 (G color)) (min 1 (B color)).

(** Modelled from the spec: [Ray.Reflect] is called by [traceRay] but not
    defined in the source files: "a reflected ray ... along the
    mirror-reflection of the incoming direction about the surface normal"
    (section 4.5). *)
Definition Ray_Reflect (ray : Ray) (normal : Vector) : Ray :=
  mkRay (spawn_origin ray normal) (Reflect (Direction ray) normal).

(** Modelled from the spec: [Ray.Refract] is called by [traceRay] but not
    defined in the source files: "compute the refracted ray using Snell's
    law via the refractive index ... unless total internal reflection
    occurs (discriminant <= 0 in the refraction formula), in which case the
    ray is treated as an internal reflection instead" (section 4.5); in
    that branch [traceRay] names the color traced along the returned ray
    [reflectedColor].  The refraction formula is [utility.Refract], applied
    to the index that [relative_index] gives for the material's index and
    the [inside] flag. *)
Definition Ray_Refract (ray : Ray) (normal : Vector) (refractiveIndex : float)
           (inside : bool) : Ray * bool :=
  match Refract (Direction ray) normal (relative_index refractiveIndex inside) with
  | (Some refracted, false) => (mkRay (spawn_origin ray normal) refracted, false)
  | _ => (Ray_Reflect ray normal, true)
  end.

(** [traceRay], with [fuel] bounding the recursion, which the source bounds
    by [depth]: see [traceRay] below. *)
Fixpoint traceRay_rec (fuel : nat) (scene : Scene) (ray : Ray) (depth : int)
         (inside : bool) : Color :=
  if (depth <=? 0)%Z then black
  else
    match fuel with
    | O => black
    | S fuel =>
        match FindClosestIntersection loopvar scene ray with
        | (Some hit, Some object) =>
            let m := Object_Material object in
            let hitColor := ComputeColor m hit scene ray in
            let hitColor :=
              if 0 <? Reflectivity m then
                let reflectionRay := Ray_Reflect ray (Normal hit) in
                let reflectedColor :=
                  traceRay_rec fuel scene reflectionRay (depth - 1) inside in
                Color_Add hitColor (Color_Scale reflectedColor (Reflectivity m))
              else hitColor in
            let hitColor :=
              if 0 <? Transparency m then
                let '(refractionRay, totalInternalReflection) :=
                  Ray_Refract ray (Normal hit) (RefractiveIndex m) inside in
                if totalInternalReflection then
                  let reflectedColor :=
                    traceRay_rec fuel scene refractionRay (depth - 1) inside in
                  Color_Add hitColor (Color_Scale reflectedColor (Transparency m))
                else
                  let refractedColor :=
                    traceRay_rec fuel scene refractionRay (depth - 1) (negb inside) in
                  Color_Add hitColor (Color_Scale refractedColor (Transparency m))
              else hitColor in
            hitColor
        | _ => black
        end
    end.

(** [depth] calls deep the recursion has reached [depth <= 0], so
    [Z.to_nat depth] is fuel enough. *)
Definition traceRay (scene : Scene) (ray : Ray) (depth : int) (inside : bool) : Color :=
  traceRay_rec (Z.to_nat depth) scene ray depth inside.

(** The local color at a hit with the reflection term added, that is
    [hitColor] when [traceRay] reaches [if object.Material.Transparency > 0]. *)
Definition colorAfterReflection (scene : Scene) (ray : Ray) (depth : int)
           (inside : bool) (hit : Hit) (object : Object) : Color :=
  let m := Object_Material object in
  let hitColor := ComputeColor m hit scene ray in
  if 0 <? Reflectivity m then
    Color_Add hitColor
      (Color_Scale (traceRay scene (Ray_Reflect ray (Normal hit)) (depth - 1) inside)
                   (Reflectivity m))
  else hitColor.

End Tracer.

(* ================================================================= *)
(** ** package utility: conversion to 8-bit channels *)

(** [color.RGBA] of Go's [image/color]: four [uint8] channels. *)
Record RGBA := mkRGBA { RGBA_R : int; RGBA_G : int; RGBA_B : int; RGBA_A : int }.

(** The integer part of a finite float (truncation towards zero). *)
Definition float_trunc (f : float) : option int :=
  match Prim2SF f with
  | S754_zero _ => Some 0%Z
  | S754_finite s m e =>
      let n := if (0 <=? e)%Z then (Zpos m * 2 ^ e)%Z else (Zpos m / 2 ^ (- e))%Z in
      Some (if s then (- n)%Z else n)
  | _ => None
  end.

(** The conversion [uint8(f)]: truncation towards zero.  Go leaves the
    result implementation-dependent when the value does not fit; the model
    wraps modulo 256 and gives [0] for NaN and the infinities. *)
Definition uint8 (f : float) : int :=
  match float_trunc f with
  | Some n => (n mod 256)%Z
  | None => 0%Z
  end.

Definition ConvertColorToUint8 (color : Color) : RGBA :=
  mkRGBA (uint8 (255.999 * Clamp (R color) 0 1))
         (uint8 (255.999 * Clamp (G color) 0 1))
         (uint8 (255.999 * Clamp (B color) 0 1))
         255.

(** Modelled from the spec: [Color.ToRGBA] is called by [Render] but not
    defined in the source files: "convert to 8-bit-per-channel RGBA (scaling
    by 255.999 and clamping each channel to [0,1] before conversion; alpha
    fixed at fully opaque)" (section 4.6), which is what
    [ConvertColorToUint8] computes. *)
Definition Color_ToRGBA (color : Color) : RGBA := ConvertColorToUint8 color.

(** The conversion [float64(n)] of an [int] of magnitude below [2^63]. *)
Definition float64 (n : int) : float :=
  if (n <? 0)%Z then - PrimFloat.of_uint63 (Uint63.of_Z (- n))
  else PrimFloat.of_uint63 (Uint63.of_Z n).

(* ================================================================= *)
(** ** package raytracer: the renderer *)

Record Raytracer := mkRaytracer {
  RT_Scene : Scene;
  Width : int;
  Height : int;
  MaxDepth : int;
  Samples : int
}.

Definition NewRaytracer (scene : Scene) (width height maxDepth samples : int) : Raytracer :=
  mkRaytracer scene width height maxDepth samples.

(** A pixel [(x, y)]. *)
Definition Pixel : Type := int * int.

Definition Pixel_eqb (p q : Pixel) : bool :=
  ((fst p =? fst q)%Z && (snd p =? snd q)%Z)%bool.

(** The values of [for i := 0; i < n; i++]. *)
Definition range (n : int) : list int := map Z.of_nat (seq 0 (Z.to_nat n)).

(** The pixels in the order in which [Render] starts their goroutines. *)
Definition raster (r : Raytracer) : list Pixel :=
  flat_map (fun y => map (fun x => (x, y)) (range (Width r))) (range (Height r)).

(** [pixels := r.Width * r.Height], the count that [Render] gives to
    [wg.Add]. *)
Definition pixels (r : Raytracer) : int := (Width r * Height r)%Z.

(** Whether [Render] comes back with these sizes:
    - [image.NewRGBA] panics unless an [int] holds the length of the buffer
      of 4 bytes per pixel of the rectangle, which [image.Rect] turns the
      right way round when a size is negative;
    - [wg.Add(pixels)] panics on a negative count;
    - the progress line after every row divides by [pixels], and an integer
      division by zero panics;
    - [wg.Wait()] is released once [wg.Done()] has been called [pixels]
      times, and every goroutine calls it once: the goroutines started must
      be [pixels] many, or [Render] waits for ever. *)
Definition comesBack (r : Raytracer) : bool :=
  ((4 * Z.abs (Width r) * Z.abs (Height r) <? 2 ^ 63)%Z
   && (0 <=? pixels r)%Z
   && negb ((0 <? Height r)%Z && (pixels r =? 0)%Z)
   && (Z.of_nat (length (raster r)) =? pixels r)%Z)%bool.

(** The goroutine of one pixel, between two calls of [utility.Random]:
    - [Running s color pending]: in iteration [s] of the sample loop with
      the accumulated [color]; [pending] holds the first random number of
      the iteration once it is drawn;
    - [Written rgba]: the loop is over and [img.Set(x, y, rgba)] is done;
    - [Returned]: the goroutine has left at [if err != nil { return }],
      without a write to the buffer. *)
Inductive Task :=
| Running (s : int) (color : Color) (pending : option float)
| Written (rgba : RGBA)
| Returned.

Section Renderer.

Variable loopvar : LoopVar.
Variable pow : float -> float -> float.
Variable spawn_origin : Ray -> Vector -> Vector.
Variable relative_index : float -> bool -> float.

(** The [inside] argument of the primary rays: the call
    [r.traceRay(ray, r.MaxDepth)] of [Render] leaves it out. *)
Variable inside0 : bool.

(** The code after the sample loop. *)
Definition finishPixel (r : Raytracer) (color : Color) : Task :=
  let color := Color_Scale color (1 / float64 (Samples r)) in
  let rgba := Color_ToRGBA color in
  Written rgba.

(** The goroutine up to its first call of [utility.Random]. *)
Definition startPixel (r : Raytracer) : Task :=
  let color := mkColor 0 0 0 in
  if (0 <? Samples r)%Z then Running 0 color None else finishPixel r color.

(** The goroutine of pixel [(x, y)] from the return of one call of
    [utility.Random], which gives [rnd], up to its next call; [None] when
    the goroutine has ended and draws no number. *)
Definition stepPixel (r : Raytracer) (p : Pixel) (t : Task) (rnd : float) : option Task :=
  let '(x, y) := p in
  match t with
  | Running s color None => Some (Running s color (Some rnd))
  | Running s color (Some rnd_u) =>
      let u := (float64 x + rnd_u) / float64 (Width r - 1) in
      let v := (float64 y + rnd) / float64 (Height r - 1) in
      match GetRay (Scene_Camera (RT_Scene r)) u v with
      | None => Some Returned
      | Some ray =>
          let sampleColor :=
            traceRay loopvar pow spawn_origin relative_index (RT_Scene r) ray (MaxDepth r)
                inside0 in
          let color := Color_Add color sampleColor in
          let s := (s + 1)%Z in
          Some (if (s <? Samples r)%Z then Running s color None else finishPixel r color)
      end
  | Written _ | Returned => None
  end.

(** The goroutines of all pixels. *)
Definition Tasks : Type := Pixel -> Task.

Definition setTask (ts : Tasks) (p : Pixel) (t : Task) : Tasks :=
  fun q => if Pixel_eqb q p then t else ts q.

Definition inRaster (r : Raytracer) (p : Pixel) : bool :=
  ((0 <=? fst p)%Z && (fst p <? Width r)%Z && (0 <=? snd p)%Z && (snd p <? Height r)%Z)%bool.

(** The goroutines draw from one shared random source: its [i]-th number
    is [source i].  A schedule lists, call after call of
    [utility.Random], the pixel whose goroutine makes the call.  [run]
    is [None] when the schedule is not one of the program: it names a
    pixel outside the image or a goroutine that has ended. *)
Fixpoint run (r : Raytracer) (source : nat -> float) (sched : list Pixel) (i : nat)
         (ts : Tasks) : option Tasks :=
  match sched with
  | [] => Some ts
  | p :: sched =>
      if inRaster r p then
        match stepPixel r p (ts p) (source i) with
        | Some t => run r source sched (S i) (setTask ts p t)
        | None => None
        end
      else None
  end.

Definition ended (t : Task) : bool :=
  match t with Running _ _ _ => false | _ => true end.

(** [image.NewRGBA] gives a buffer of zero pixels; each goroutine writes
    its own slot at most once. *)
Definition Image : Type := int -> int -> RGBA.

Definition imageOf (r : Raytracer) (ts : Tasks) : Image :=
  fun x y =>
    if inRaster r (x, y) then
      match ts (x, y) with
      | Written rgba => rgba
      | _ => mkRGBA 0 0 0 0
      end
    else mkRGBA 0 0 0 0.

(** [Render] under a schedule of the goroutines: the image that
    [wg.Wait()] releases, once every goroutine has ended; [None] when the
    schedule is not a complete run, and when [Render] does not come back
    (it panics, or waits for ever). *)
Definition Render (r : Raytracer) (source : nat -> float) (sched : list Pixel)
  : option Image :=
  if comesBack r then
    match run r source sched 0 (fun _ => startPixel r) with
    | Some ts =>
        if forallb (fun p => ended (ts p)) (raster r) then Some (imageOf r ts) else None
    | None => None
    end
  else None.

(** The random numbers that the goroutine of pixel [p] receives under a
    schedule, in the order in which it receives them. *)
Fixpoint drawsOf (source : nat -> float) (p : Pixel) (sched : list Pixel) (i : nat)
  : list float :=
  match sched with
  | [] => []
  | q :: sched =>
      if Pixel_eqb q p then source i :: drawsOf source p sched (S i)
      else drawsOf source p sched (S i)
  end.

(** The goroutine of pixel [p] run on the random numbers it receives, one
    after the other. *)
Fixpoint feed (r : Raytracer) (p : Pixel) (t : Task) (draws : list float) : option Task :=
  match draws with
  | [] => Some t
  | rnd :: draws =>
      match stepPixel r p t rnd with
      | Some t' => feed r p t' draws
      | None => None
      end
  end.

End Renderer.

(* ================================================================= *)
(** ** The shading formula in the words of the specification *)

Section ShadingFormula.

(** The formula is written channel by channel on the components of the
    vectors, with no function of the embedded code, so that it stands on
    its own beside [ComputeColor]. *)

Variable pow : float -> float -> float.

(** "max(0, x)": the larger of 0 and [x]. *)
Definition atLeast0 (x : float) : float := if x <? 0 then 0 else x.

(** "clamped to at most 1": the smaller of 1 and [x]. *)
Definition atMost1 (x : float) : float := if 1 <? x then 1 else x.

(** "normal . lightDir", "viewDir . reflectDir": the product of two
    directions. *)
Definition product (v w : Vector) : float := X v * X w + Y v * Y w + Z v * Z w.

(** "distance": from the hit position to the light. *)
Definition distanceTo (hit : Hit) (light : Light) : float :=
  let dx := X (Light_Position light) - X (Position hit) in
  let dy := Y (Light_Position light) - Y (Position hit) in
  let dz := Z (Light_Position light) - Z (Position hit) in
  PrimFloat.sqrt (dx * dx + dy * dy + dz * dz).

(** "light direction (toward light, normalized)" *)
Definition lightDir (hit : Hit) (light : Light) : Vector :=
  let distance := distanceTo hit light in
  mkVector ((X (Light_Position light) - X (Position hit)) / distance)
           ((Y (Light_Position light) - Y (Position hit)) / distance)
           ((Z (Light_Position light) - Z (Position hit)) / distance).

(** "a simple inverse-linear attenuation 1/(1+0.1 distance)" *)
Definition attenuationAt (hit : Hit) (light : Light) : float :=
  1 / (1 + 0.1 * distanceTo hit light).

(** "reflectDir is the reflection of the negated light direction about the
    surface normal": [v - 2 (v . n) n] for the negated light direction [v]. *)
Definition reflectDir (hit : Hit) (light : Light) : Vector :=
  let l := lightDir hit light in
  let n := Normal hit in
  let v := mkVector (- X l) (- Y l) (- Z l) in
  let k := 2 * product v n in
  mkVector (X v - X n * k) (Y v - Y n * k) (Z v - Z n * k).

(** "viewDir is the negated incoming ray direction" *)
Definition viewDir (ray : Ray) : Vector :=
  mkVector (- X (Direction ray)) (- Y (Direction ray)) (- Z (Direction ray)).

(** "diffuse term = materialColor x diffuseCoefficient x max(0, normal . lightDir)",
    for one channel of the material's color. *)
Definition diffuseTerm (m : Material) (hit : Hit) (light : Light) (materialColor : float)
  : float :=
  materialColor
  * (DiffuseCoefficient m * atLeast0 (product (Normal hit) (lightDir hit light))).

(** "specular term = lightColor x specularCoefficient x
    max(0, viewDir . reflectDir)^shininess", for one channel of the light's
    color. *)
Definition specularTerm (m : Material) (hit : Hit) (ray : Ray) (light : Light)
           (lightColor : float) : float :=
  lightColor
  * (SpecularCoefficient m
     * pow (atLeast0 (product (viewDir ray) (reflectDir hit light))) (Shininess m)).

(** "Accumulate (diffuse+specular) x attenuation into the ambient base",
    light after light in the order of the scene's collection, for the
    channel that [channel] selects. *)
Fixpoint accumulateLights (channel : Color -> float) (m : Material) (hit : Hit) (ray : Ray)
         (base : float) (lights : list Light) : float :=
  match lights with
  | [] => base
  | light :: lights =>
      accumulateLights channel m hit ray
        (base
         + (diffuseTerm m hit light (channel (Mat_Color m))
            + specularTerm m hit ray light (channel (Light_Color light)))
           * attenuationAt hit light)
        lights
  end.

(** "start from ambient = materialColor x ambientCoefficient ... Final color
    components are clamped to at most 1" *)
Definition shadedChannel (channel : Color -> float) (m : Material) (hit : Hit) (s : Scene)
           (ray : Ray) : float :=
  let ambient := channel (Mat_Color m) * AmbientCoefficient m in
  atMost1 (accumulateLights channel m hit ray ambient (Lights s)).

Definition ShadingFormula (m : Material) (hit : Hit) (s : Scene) (ray : Ray) : Color :=
  mkColor (shadedChannel R m hit s ray)
          (shadedChannel G m hit s ray)
          (shadedChannel B m hit s ray).

End ShadingFormula.

(* ================================================================= *)
(** ** Notions used in the proofs *)

(** The lexicographic order on exponent and mantissa by which two finite
    floats of the same sign are compared. *)
Definition lexlt (e1 : int) (m1 : positive) (e2 : int) (m2 : positive) : Prop :=
  (e1 < e2)%Z \/ (e1 = e2 /\ (m1 < m2)%positive).

(** What the loop of [FindClosestIntersection] has established once the
    objects [seen] are behind it. *)
Definition closest_inv (ray : Ray) (seen : list Object) (st : Closest) : Prop :=
  match closestHit st, closestObject st with
  | Some h, Some o =>
      closestDistance st = T h
      /\ In o seen /\ Intersect o ray = Some h
      /\ (T h <? infinity) = true
      /\ forall o' h', In o' seen -> Intersect o' ray = Some h' -> (T h' <? T h) = false
  | None, None =>
      closestDistance st = infinity
      /\ forall o' h', In o' seen -> Intersect o' ray = Some h' -> (T h' <? infinity) = false
  | _, _ => False
  end.

(** The shapes before the one whose hit is kept report hits that are
    strictly farther, or whose [t] is NaN. *)
Definition first_inv (ray : Ray) (seen : list Object) (st : Closest) : Prop :=
  match closestHit st, closestObject st with
  | Some h, Some o =>
      exists l1 l2, seen = l1 ++ o :: l2
        /\ forall o' h', In o' l1 -> Intersect o' ray = Some h' ->
                         T h' = nan \/ (T h <? T h') = true
  | _, _ => True
  end.

(** How the loop with its variable in memory stands to the loop on values
    once the objects [seen] are behind them: the same hit and distance; with
    a variable per iteration the store holds the objects seen and the pointer
    is the address of the shape kept, with one variable per loop the store
    holds the last object seen and the pointer is its address. *)
Definition memory_inv (loopvar : LoopVar) (seen : list Object) (c : Closest) (st : Loop)
  : Prop :=
  loop_closestHit st = closestHit c
  /\ loop_closestDistance st = closestDistance c
  /\ match loopvar with
     | PerIteration =>
         variables st = seen
         /\ match loop_closestObject st, closestObject c with
            | Some a, Some o => nth_error seen a = Some o
            | None, None => True
            | _, _ => False
            end
     | PerLoop =>
         variables st = match seen with [] => [] | o :: l => [last l o] end
         /\ match loop_closestObject st, closestObject c with
            | Some a, Some o => a = 0%nat /\ seen <> []
            | None, None => True
            | _, _ => False
            end
     end.

(* ================================================================= *)
(** ** Quantities of the source named on their own *)

(** NaN or an infinity. *)
Definition not_finite (x : float) : Prop :=
  match Prim2SF x with
  | S754_nan | S754_infinity _ => True
  | _ => False
  end.

(** A zero of either sign, or NaN. *)
Definition zero_or_nan (x : float) : Prop := x = 0 \/ x = -0 \/ x = nan.

(** [a], [u] and [v] of [Triangle.Intersect]: the determinant and the two
    barycentric coordinates. *)
Definition Triangle_det (t : Triangle) (ray : Ray) : float :=
  let edge1 := Subtract (V1 t) (V0 t) in
  let edge2 := Subtract (V2 t) (V0 t) in
  let h := Cross (Direction ray) edge2 in
  Dot edge1 h.

Definition Triangle_u (t : Triangle) (ray : Ray) : float :=
  let edge2 := Subtract (V2 t) (V0 t) in
  let h := Cross (Direction ray) edge2 in
  let f := 1 / Triangle_det t ray in
  let s := Subtract (Origin ray) (V0 t) in
  f * Dot s h.

Definition Triangle_v (t : Triangle) (ray : Ray) : float :=
  let edge1 := Subtract (V1 t) (V0 t) in
  let f := 1 / Triangle_det t ray in
  let s := Subtract (Origin ray) (V0 t) in
  let q := Cross s edge1 in
  f * Dot (Direction ray) q.

(** [closestDistance] of [FindClosestIntersection] for the closest hit so
    far: the [t] below which a further hit replaces it. *)
Definition closestT (closest : option Hit) : float :=
  match closest with
  | Some h => T h
  | None => infinity
  end.

(** A material for which [traceRay] spawns no ray: neither
    [Reflectivity > 0] nor [Transparency > 0]. *)
Definition matte (m : Material) : Prop :=
  (0 <? Reflectivity m) = false /\ (0 <? Transparency m) = false.

(** A goroutine of [Render] that has seen black samples only and no camera
    failure. *)
Definition black_task (t : Task) : Prop :=
  match t with
  | Running _ color _ => color = mkColor 0 0 0
  | Written rgba => rgba = mkRGBA 0 0 0 255
  | Returned => False
  end.

(** The ray of a sample of pixel [p] for the two random numbers [rnd]:
    [u], [v] and the call of [GetRay] in the sample loop of [Render]. *)
Definition sampleRay (r : Raytracer) (p : Pixel) (rnd : float * float) : option Ray :=
  GetRay (Scene_Camera (RT_Scene r))
         ((float64 (fst p) + fst rnd) / float64 (Width r - 1))
         ((float64 (snd p) + snd rnd) / float64 (Height r - 1)).

(** The random numbers of the samples of a pixel in the order in which its
    goroutine draws them. *)
Definition drawsOfSamples (samples : list (float * float)) : list float :=
  flat_map (fun rnd => [fst rnd; snd rnd]) samples.

(** A vector whose components are zeros of either sign. *)
Definition zero_vector (v : Vector) : Prop :=
  (X v = 0 \/ X v = -0) /\ (Y v = 0 \/ Y v = -0) /\ (Z v = 0 \/ Z v = -0).

(** A vector whose components are +0 or NaN. *)
Definition zero_or_nan_vector (v : Vector) : Prop :=
  (X v = 0 \/ X v = nan) /\ (Y v = 0 \/ Y v = nan) /\ (Z v = 0 \/ Z v = nan).

Section SampleSum.

Variable loopvar : LoopVar.
Variable pow : float -> float -> float.
Variable spawn_origin : Ray -> Vector -> Vector.
Variable relative_index : float -> bool -> float.
Variable inside0 : bool.

(** [color = color.Add(sampleColor)] over the rays of the samples, in
    their order. *)
Definition sumColors (r : Raytracer) (rays : list Ray) (color : Color) : Color :=
  fold_left (fun color ray =>
               Color_Add color
                 (traceRay loopvar pow spawn_origin relative_index (RT_Scene r) ray (MaxDepth r)
                     inside0))
            rays color.

End SampleSum.

(* ================================================================= *)
(** ** Concrete scenes and rays *)

Module Examples.

Definition vec (x y z : float) : Vector := mkVector x y z.

(** A red material that is neither reflective nor transparent, with
    ambient coefficient 1. *)
Definition red : Material := mkMaterial (mkColor 1 0 0) 0 0 1 1 0 0 1.

(** A glass-like material: transparent, not reflective. *)
Definition glass (refractiveIndex : float) : Material :=
  mkMaterial (mkColor 0 0 1) 0 0.5 refractiveIndex 1 0 0 1.

(** The plane [y = 0] with normal [(0, 1, 0)]. *)
Definition ground : Plane := mkPlane (vec 0 0 0) (vec 0 1 0) red.

(** A ray that starts on the plane [ground] and leaves it along its normal. *)
Definition ray_from_ground : Ray := mkRay (vec 0 0 0) (vec 0 1 0).

(** A ray that starts below [ground] and strikes its back side. *)
Definition ray_from_below : Ray := mkRay (vec 0 (-1) 0) (vec 0 1 0).

(** The unit sphere around [(0, 0, -5)] and a ray from the origin that
    points away from it. *)
Definition sphere_behind : Sphere := mkSphere (vec 0 0 (-5)) 1 red.
Definition ray_forward : Ray := mkRay (vec 0 0 0) (vec 0 0 1).

(** The cylinder of radius 1 around the y axis and a ray parallel to
    its axis. *)
Definition pillar : Cylinder := mkCylinder (vec 0 0 0) 1 red.
Definition ray_along_axis : Ray := mkRay (vec 5 0 0) (vec 0 1 0).

(** The cube [[-1,1]^3]. *)
Definition box : Cube := mkCube (vec 0 0 0) 2 red.

(** A ray parallel to the z axis that runs in the plane [x = -1] of a
    face of [box]. *)
Definition ray_in_face_plane : Ray := mkRay (vec (-1) 0 (-5)) (vec 0 0 1).

(** A ray towards [box] from far away ([2^60] below it), with no zero
    component in its direction. *)
Definition ray_from_far : Ray :=
  mkRay (vec 0 0 (-0x1p+60)) (vec 0x1p-61 0x1p-61 1).

(** A ray that enters [box] through its face [z = -1]. *)
Definition ray_into_box : Ray := mkRay (vec 0 0 (-5)) (vec 0 0 1).

(** An orthographic camera that looks along the z axis. *)
Definition camera : Camera :=
  mkCamera (fun u v => Some (mkRay (vec u v 0) (vec 0 0 1))).

(** A camera whose configuration is invalid for the left half of the
    screen. *)
Definition camera_failing : Camera :=
  mkCamera (fun u v => if u <? 0.5 then None else Some (mkRay (vec 0 0 0) (vec 0 0 1))).

(** The cube [[-0.5,0.5]^2 x [4.5,5.5]] in front of the cameras. *)
Definition small_box : Cube := mkCube (vec 0 0 5) 1 red.

Definition scene_box : Scene := mkScene [ObjCube small_box] [] camera.
Definition scene_box_failing : Scene := mkScene [ObjCube small_box] [] camera_failing.
Definition scene_pillar : Scene := mkScene [ObjCylinder pillar] [] camera.
Definition scene_empty : Scene := mkScene [] [] camera.

(** A blue wall [z = 10] behind [small_box], and the scene that holds the
    box first and the wall last. *)
Definition blue : Material := mkMaterial (mkColor 0 0 1) 0 0 1 1 0 0 1.
Definition wall : Plane := mkPlane (vec 0 0 10) (vec 0 0 (-1)) blue.
Definition scene_box_wall : Scene := mkScene [ObjCube small_box; ObjPlane wall] [] camera.

(** The ray of [camera] through the screen point [(0.25, 0.25)]. *)
Definition ray_at_box : Ray := mkRay (vec 0.25 0.25 0) (vec 0 0 1).

(** A sheet of glass [y = 0] with the given index, lit by nothing. *)
Definition pane (refractiveIndex : float) : Plane :=
  mkPlane (vec 0 0 0) (vec 0 1 0) (glass refractiveIndex).
Definition scene_pane (refractiveIndex : float) : Scene :=
  mkScene [ObjPlane (pane refractiveIndex)] [] camera.

(** A ray that meets the sheet of glass at 45 degrees. *)
Definition ray_slanted : Ray := mkRay (vec 0 1 0) (vec 0.5 (-0.5) 0).

(** [math.Pow] is not called in a scene without lights. *)
Definition pow0 (x y : float) : float := x.

Definition keep_origin (ray : Ray) (normal : Vector) : Vector := Origin ray.

(** The ratio of indices for a material in air: the index of air over the
    index of the material for a ray outside, the reverse for a ray inside. *)
Definition relative_index (refractiveIndex : float) (inside : bool) : float :=
  if inside then refractiveIndex else 1 / refractiveIndex.

(** A steeper ray onto the sheet of glass: refracted from either side. *)
Definition ray_steep : Ray := mkRay (vec 0 1 0) (vec 0.6 (-0.8) 0).

(** The hit of [ray_slanted] on the sheet of glass of index 1.5. *)
Definition hit_slanted : Hit :=
  mkHit (vec 1 0 0) (vec 0 1 0) 2 (ObjPlane (pane 1.5)).

(** 2 x 2 pixels, depth 1, one sample per pixel. *)
Definition tracer1 : Raytracer := mkRaytracer scene_box 2 2 1 1.

(** 2 x 2 pixels, depth 1, two samples per pixel, the failing camera. *)
Definition tracer2 : Raytracer := mkRaytracer scene_box_failing 2 2 1 2.

(** A random source that gives [0.25] twice and [0.75] from then on. *)
Definition source_step (i : nat) : float := if Nat.ltb i 2 then 0.25 else 0.75.

Definition source_const (i : nat) : float := 0.25.

(** Two schedules of [tracer1]: the goroutine of pixel [(0, 0)] draws
    first, or the goroutine of pixel [(1, 0)] does. *)
Definition sched_a : list Pixel :=
  [(0, 0); (0, 0); (1, 0); (1, 0); (0, 1); (0, 1); (1, 1); (1, 1)]%Z.
Definition sched_b : list Pixel :=
  [(1, 0); (1, 0); (0, 0); (0, 0); (0, 1); (0, 1); (1, 1); (1, 1)]%Z.

(** A schedule of [tracer2]: pixel [(0, 0)] draws twice, the other three
    pixels four times each. *)
Definition sched_2 : list Pixel :=
  [(0, 0); (0, 0);
   (1, 0); (1, 0); (1, 0); (1, 0);
   (0, 1); (0, 1); (0, 1); (0, 1);
   (1, 1); (1, 1); (1, 1); (1, 1)]%Z.

(** A triangle in the plane [z = 5] and a ray that meets its inside. *)
Definition facet : Triangle := mkTriangle (vec 0 0 5) (vec 1 0 5) (vec 0 1 5) red.

(** A ray across the cylinder [pillar]. *)
Definition ray_across : Ray := mkRay (vec 5 0 0) (vec (-1) 0 0).

(** A vector whose squared components underflow to zero. *)
Definition tiny : Vector := vec 0x1p-600 0 0.

(** A blue box in the place of [small_box], and the scene that holds the
    red one first. *)
Definition small_box_blue : Cube := mkCube (vec 0 0 5) 1 blue.
Definition scene_two_boxes : Scene :=
  mkScene [ObjCube small_box; ObjCube small_box_blue] [] camera.

(** A mirror [y = 0]: reflective, not transparent. *)
Definition mirror_material : Material := mkMaterial (mkColor 0 1 0) 0.5 0 1 1 0 0 1.
Definition mirror : Plane := mkPlane (vec 0 0 0) (vec 0 1 0) mirror_material.
Definition scene_mirror : Scene := mkScene [ObjPlane mirror] [] camera.

(** 2 x 2 pixels, depth 5, one sample per pixel, no shape. *)
Definition tracer_empty : Raytracer := mkRaytracer scene_empty 2 2 5 1.

(** A ray without a direction. *)
Definition ray_nowhere : Ray := mkRay (vec 0 0 0) (vec 0 (-0) 0).

(** The mirror under a white light that sits on it where [ray_slanted]
    meets it. *)
Definition lamp : Light := mkLight (vec 1 0 0) (mkColor 1 1 1).
Definition scene_lamp : Scene := mkScene [ObjPlane mirror] [lamp] camera.
Definition hit_mirror : Hit := mkHit (vec 1 0 0) (vec 0 1 0) 2 (ObjPlane mirror).

End Examples.

(* ================================================================= *)
(** * Properties *)

(** ** The order of binary64 floats

    [<?] is a strict partial order, and [<=?] excludes its converse; both
    are false as soon as one side is NaN. *)

Lemma cmp_pos_Lt e1 m1 e2 m2 :
  match (e1 ?= e2)%Z with
  | Lt => Lt | Gt => Gt | Eq => Pos.compare_cont Eq m1 m2
  end = Lt <-> lexlt e1 m1 e2 m2.
Proof.
  unfold lexlt. fold (Pos.compare m1 m2).
  destruct (Z.compare_spec e1 e2); destruct (Pos.compare_spec m1 m2);
    split; intros; try discriminate; try reflexivity; lia.
Qed.

Lemma cmp_neg_Lt e1 m1 e2 m2 :
  match (e1 ?= e2)%Z with
  | Lt => Gt | Gt => Lt | Eq => CompOpp (Pos.compare_cont Eq m1 m2)
  end = Lt <-> lexlt e2 m2 e1 m1.
Proof.
  unfold lexlt. fold (Pos.compare m1 m2).
  destruct (Z.compare_spec e1 e2); destruct (Pos.compare_spec m1 m2);
    split; simpl; intros; try discriminate; try reflexivity; lia.
Qed.

Lemma SFltb_finite s1 m1 e1 s2 m2 e2 :
  SFltb (S754_finite s1 m1 e1) (S754_finite s2 m2 e2) = true <->
  match s1, s2 with
  | true, false => True
  | false, true => False
  | false, false => lexlt e1 m1 e2 m2
  | true, true => lexlt e2 m2 e1 m1
  end.
Proof.
  unfold SFltb, SFcompare.
  destruct s1, s2.
  - rewrite <- cmp_neg_Lt.
    destruct (match (e1 ?= e2)%Z with
              | Lt => Gt | Gt => Lt | Eq => CompOpp (Pos.compare_cont Eq m1 m2) end);
      split; intros; try discriminate; reflexivity.
  - split; auto.
  - split; [discriminate | contradiction].
  - rewrite <- cmp_pos_Lt.
    destruct (match (e1 ?= e2)%Z with
              | Lt => Lt | Gt => Gt | Eq => Pos.compare_cont Eq m1 m2 end);
      split; intros; try discriminate; reflexivity.
Qed.

Lemma SFleb_finite s1 m1 e1 s2 m2 e2 :
  SFleb (S754_finite s1 m1 e1) (S754_finite s2 m2 e2) = true ->
  match s1, s2 with
  | true, false => True
  | false, true => False
  | false, false => ~ lexlt e2 m2 e1 m1
  | true, true => ~ lexlt e1 m1 e2 m2
  end.
Proof.
  unfold SFleb, SFcompare, lexlt.
  destruct s1, s2; try (intros; exact I); try discriminate;
    fold (Pos.compare m1 m2);
    destruct (Z.compare_spec e1 e2); destruct (Pos.compare_spec m1 m2);
    simpl; intros; try discriminate; lia.
Qed.

Lemma SFltb_irrefl a : SFltb a a = false.
Proof.
  destruct a as [s|s| |s m e]; try (destruct s; reflexivity); try reflexivity.
  destruct (SFltb (S754_finite s m e) (S754_finite s m e)) eqn:E; [|reflexivity].
  apply SFltb_finite in E. unfold lexlt in E. destruct s; lia.
Qed.

Lemma SFltb_trans a b c : SFltb a b = true -> SFltb b c = true -> SFltb a c = true.
Proof.
  destruct a as [sa|sa| |sa ma ea], b as [sb|sb| |sb mb eb], c as [sc|sc| |sc mc ec];
    try (rewrite !SFltb_finite; destruct sa, sb, sc; unfold lexlt;
         intros; try contradiction; try exact I; lia);
    unfold SFltb, SFcompare;
    repeat match goal with s : bool |- _ => destruct s end;
    intros; try discriminate; try reflexivity.
Qed.

Lemma SFleb_not_ltb a b : SFleb a b = true -> SFltb b a = false.
Proof.
  intros Hle. destruct (SFltb b a) eqn:Hlt; [exfalso | reflexivity].
  destruct a as [sa|sa| |sa ma ea], b as [sb|sb| |sb mb eb];
    try (apply SFleb_finite in Hle; apply SFltb_finite in Hlt;
         destruct sa, sb; tauto);
    unfold SFleb, SFltb, SFcompare in *;
    repeat match goal with s : bool |- _ => destruct s end;
    discriminate.
Qed.

Lemma ltb_irrefl x : (x <? x) = false.
Proof. rewrite ltb_spec. apply SFltb_irrefl. Qed.

Lemma ltb_trans x y z : (x <? y) = true -> (y <? z) = true -> (x <? z) = true.
Proof. rewrite !ltb_spec. apply SFltb_trans. Qed.

Lemma leb_not_ltb x y : (x <=? y) = true -> (y <? x) = false.
Proof. rewrite leb_spec, ltb_spec. apply SFleb_not_ltb. Qed.

(** A value that is not below a bound is not below anything under it. *)
Lemma not_ltb_below x y z : (x <? z) = false -> (y <? z) = true -> (x <? y) = false.
Proof.
  intros Hxz Hyz. destruct (x <? y) eqn:Hxy; [|reflexivity].
  rewrite (ltb_trans _ _ _ Hxy Hyz) in Hxz. discriminate.
Qed.

(* ================================================================= *)
(** ** Shape intersection *)

(** C1, as the claim states it, fails: a ray that starts on a plane and
    leaves it along the normal is reported as a hit with [t = 0], which is
    not above the epsilon. *)
Lemma Plane_Intersect_hit_at_zero :
  Intersect (ObjPlane Examples.ground) Examples.ray_from_ground
  = Some (mkHit (mkVector 0 0 0) (mkVector 0 1 0) 0 (ObjPlane Examples.ground))
  /\ (epsilon <? 0) = false.
Proof. split; vm_compute; reflexivity. Qed.

(** The sphere and the cylinder test the discriminant only: a sphere that
    lies wholly behind the origin of the ray is reported as a hit, with a
    negative [t]. *)
Lemma Sphere_Intersect_behind_origin :
  option_map T (Sphere_Intersect Examples.sphere_behind Examples.ray_forward) = Some (-6).
Proof. vm_compute. reflexivity. Qed.

(** C1 (amended): whenever a shape's [Intersect] returns a Hit, the ray is
    not parallel or degenerate in the sense of the shape's own test, and
    the parameter passed that test: a triangle's determinant is not below
    1e-4 in magnitude and its [t] is above 1e-4; a plane's
    [|normal . direction|] is above 1e-4 and its [t] is at least 0; a cube's
    [t] is not below 0; the discriminant of a sphere or a cylinder is not
    negative. *)
Theorem Intersect_hit_passes_tests (o : Object) (ray : Ray) (h : Hit) :
  Intersect o ray = Some h ->
  match o with
  | ObjSphere s => (Sphere_discriminant s ray <? 0) = false
  | ObjPlane p =>
      (epsilon <? PrimFloat.abs (Dot (Plane_Normal p) (Direction ray))) = true
      /\ (0 <=? T h) = true
  | ObjTriangle t =>
      (PrimFloat.abs (Dot (Subtract (V1 t) (V0 t))
                          (Cross (Direction ray) (Subtract (V2 t) (V0 t)))) <? epsilon) = false
      /\ (epsilon <? T h) = true
  | ObjCylinder c => (Cylinder_discriminant c ray <? 0) = false
  | ObjCube c => (T h <? 0) = false
  end.
Proof.
  destruct o as [s|p|t|c|c]; simpl.
  - unfold Sphere_Intersect, Sphere_discriminant.
    destruct (_ <? 0); [discriminate | reflexivity].
  - unfold Plane_Intersect, epsilon.
    destruct (0.0001 <? _); [|discriminate].
    destruct (0 <=? _) eqn:Ht; [|discriminate].
    intros [= <-]. simpl. auto.
  - unfold Triangle_Intersect, epsilon.
    destruct (_ <? 0.0001); [discriminate|].
    destruct (_ || _); [discriminate|].
    destruct (_ || _); [discriminate|].
    destruct (0.0001 <? _) eqn:Ht; [|discriminate].
    intros [= <-]. simpl. auto.
  - unfold Cylinder_Intersect, Cylinder_discriminant.
    destruct (_ <? 0); [discriminate | reflexivity].
  - unfold Cube_Intersect.
    destruct (Cube_slabs c ray) as [[tmin tmax]|]; [|discriminate].
    destruct (tmin <? 0) eqn:Hmin.
    + destruct (tmax <? 0) eqn:Hmax; [discriminate|].
      intros [= <-]. exact Hmax.
    + intros [= <-]. exact Hmin.
Qed.

Lemma Intersect_hit_passes_tests_witness :
  (epsilon <? PrimFloat.abs (Dot (Plane_Normal Examples.ground)
                                 (Direction Examples.ray_from_below))) = true
  /\ (0 <=? 1) = true.
Proof.
  apply (Intersect_hit_passes_tests (ObjPlane Examples.ground) Examples.ray_from_below
           (mkHit (mkVector 0 0 0) (mkVector 0 1 0) 1 (ObjPlane Examples.ground))).
  vm_compute. reflexivity.
Defined.

(** C10: [Plane.Intersect] reports a hit exactly when
    [|normal . direction| > 1e-4] and [t >= 0], and the Hit's normal is then
    the plane's stored [Normal], never flipped: for a ray that strikes the
    back side ([normal . direction > 0]) the Hit's normal points along the
    ray, away from its origin. *)
Theorem Plane_Intersect_keeps_normal (p : Plane) (ray : Ray) :
  let denom := Dot (Plane_Normal p) (Direction ray) in
  let t := Dot (Subtract (Plane_Point p) (Origin ray)) (Plane_Normal p) / denom in
  ((epsilon <? PrimFloat.abs denom) = true -> (0 <=? t) = true ->
   Plane_Intersect p ray = Some (mkHit (At ray t) (Plane_Normal p) t (ObjPlane p)))
  /\ (forall h, Plane_Intersect p ray = Some h ->
      (epsilon <? PrimFloat.abs denom) = true /\ (0 <=? T h) = true
      /\ Normal h = Plane_Normal p
      /\ ((0 <? denom) = true -> (0 <? Dot (Normal h) (Direction ray)) = true)).
Proof.
  cbv zeta. unfold Plane_Intersect, epsilon. split.
  - intros -> ->. reflexivity.
  - intros h.
    destruct (0.0001 <? _); [|discriminate].
    destruct (0 <=? _) eqn:Ht; [|discriminate].
    intros [= <-]. simpl. auto.
Qed.

Lemma Plane_Intersect_keeps_normal_witness :
  Plane_Intersect Examples.ground Examples.ray_from_below
  = Some (mkHit (mkVector 0 0 0) (mkVector 0 1 0) 1 (ObjPlane Examples.ground))
  /\ (0 <? Dot (mkVector 0 1 0) (Direction Examples.ray_from_below)) = true.
Proof.
  pose proof (Plane_Intersect_keeps_normal Examples.ground Examples.ray_from_below) as [Hhit
      Hnormal].
  split.
  - exact (Hhit eq_refl eq_refl).
  - destruct (Hnormal _ (Hhit eq_refl eq_refl)) as (_ & _ & _ & Hback).
    exact (Hback eq_refl).
Defined.

(** C5: a ray parallel to the axis of a cylinder makes the quadratic
    coefficient [a] zero; [Cylinder.Intersect] divides by [2 * a] all the
    same and returns a Hit whose [t], position and normal are NaN. *)
Theorem Cylinder_Intersect_parallel_to_axis :
  Cylinder_Intersect Examples.pillar Examples.ray_along_axis
  = Some (mkHit (mkVector nan nan nan) (mkVector nan nan nan) nan
                (ObjCylinder Examples.pillar)).
Proof. vm_compute. reflexivity. Qed.

(** A zero direction component is no miss for the cube either: the slab
    divisions give infinities, and the ray that enters the face [z = -1]
    head-on is a Hit at [t = 4]; when the origin lies in the plane of a face
    the division is [0 / 0] and the Hit carries NaN. *)
Lemma Cube_Intersect_zero_direction_component :
  Cube_Intersect Examples.box Examples.ray_into_box
  = Some (mkHit (mkVector 0 0 (-1)) (mkVector 0 0 (-1)) 4 (ObjCube Examples.box))
  /\ Cube_Intersect Examples.box Examples.ray_in_face_plane
     = Some (mkHit (mkVector nan nan nan) (mkVector (-1) 0 0) nan (ObjCube Examples.box)).
Proof. split; vm_compute; reflexivity. Qed.

(** *** The nearest-face heuristic *)

Lemma argmin_loop_spec (d : float) (rest : list float) :
  forall (seen : list float) (minIndex : nat) (minValue : float),
    (minIndex < length seen)%nat ->
    nth minIndex seen d = minValue ->
    (forall x, In x seen -> (x <? minValue) = false) ->
    let '(k, v) := argmin_loop rest (length seen) minIndex minValue in
    (k < length (seen ++ rest))%nat
    /\ nth k (seen ++ rest) d = v
    /\ (forall x, In x (seen ++ rest) -> (x <? v) = false).
Proof.
  induction rest as [|x rest IH]; intros seen minIndex minValue Hlt Hnth Hmin.
  - simpl. rewrite app_nil_r. auto.
  - simpl argmin_loop.
    replace (seen ++ x :: rest) with ((seen ++ [x]) ++ rest)
      by (rewrite <- app_assoc; reflexivity).
    replace (S (length seen)) with (length (seen ++ [x]))
      by (rewrite length_app; simpl; lia).
    destruct (x <? minValue) eqn:Hx.
    + apply IH.
      * rewrite length_app. simpl. lia.
      * rewrite app_nth2 by lia. rewrite Nat.sub_diag. reflexivity.
      * intros y Hy. apply in_app_or in Hy. destruct Hy as [Hy | [<- | []]].
        -- apply not_ltb_below with (z := minValue); auto.
        -- apply ltb_irrefl.
    + apply IH.
      * rewrite length_app. simpl. lia.
      * rewrite app_nth1 by lia. exact Hnth.
      * intros y Hy. apply in_app_or in Hy. destruct Hy as [Hy | [<- | []]]; auto.
Qed.

Lemma argmin_spec (d : float) (l : list float) :
  l <> [] ->
  (argmin l < length l)%nat
  /\ (forall x, In x l -> (x <? nth (argmin l) l d) = false).
Proof.
  destruct l as [|x rest]; [congruence | intros _].
  unfold argmin.
  pose proof (argmin_loop_spec d rest [x] 0 x) as H. simpl length in H.
  destruct (argmin_loop rest 1 0 x) as [k v]. simpl fst.
  destruct H as (Hk & Hnth & Hmin).
  - lia.
  - reflexivity.
  - intros y [<- | []]. apply ltb_irrefl.
  - simpl app in *. rewrite Hnth. auto.
Qed.

(** [Cube.NormalAt] returns the entry of [normals] at an index whose face
    plane is at least as near to the point as every other face plane. *)
Lemma Cube_NormalAt_nearest (cube : Cube) (point : Vector) :
  exists i, (i < 6)%nat
    /\ Cube_NormalAt cube point = nth i normals (mkVector 0 0 0)
    /\ forall j, (j < 6)%nat ->
         (nth j (sides cube point) 0 <? nth i (sides cube point) 0) = false.
Proof.
  exists (argmin (sides cube point)).
  destruct (argmin_spec 0 (sides cube point)) as [Hlt Hmin]; [discriminate|].
  split; [exact Hlt|]. split; [reflexivity|].
  intros j Hj. apply Hmin. apply nth_In. exact Hj.
Qed.

(** C9, as the claim states it, fails: for a ray that reaches the cube
    [[-1,1]^3] from [2^60] away, the computed hit position is the point
    [(0.5, 0.5, 0)] inside the cube; the normal returned is [(1, 0, 0)], and
    the position is [0.5] away from the plane [x = 1] of that face, as far
    or farther from every other face plane. *)
Lemma Cube_Intersect_position_off_face :
  Cube_Intersect Examples.box Examples.ray_from_far
  = Some (mkHit (mkVector 0.5 0.5 0) (mkVector 1 0 0) 0x1p+60 (ObjCube Examples.box))
  /\ sides Examples.box (mkVector 0.5 0.5 0) = [1.5; 0.5; 1.5; 0.5; 1; 1]
  /\ (epsilon <? 0.5) = true.
Proof. repeat split; vm_compute; reflexivity. Qed.

(** C9 (amended): every Hit returned by [Cube.Intersect] uses [t = tmin] of
    the slab-interval intersection unless [tmin < 0], else [tmax] unless
    [tmax < 0]; when both are below 0 there is no hit.  The hit position is
    the point of the ray at [t], and the returned normal is one of the six
    axis-aligned unit vectors, that of a face whose plane is at least as
    near to the hit position as the planes of the other five faces. *)
Theorem Cube_Intersect_hit (cube : Cube) (ray : Ray) :
  (forall h, Cube_Intersect cube ray = Some h ->
     exists tmin tmax,
       Cube_slabs cube ray = Some (tmin, tmax)
       /\ T h = (if tmin <? 0 then tmax else tmin)
       /\ (T h <? 0) = false
       /\ Position h = At ray (T h)
       /\ In (Normal h) normals
       /\ exists i, (i < 6)%nat
            /\ Normal h = nth i normals (mkVector 0 0 0)
            /\ forall j, (j < 6)%nat ->
                 (nth j (sides cube (Position h)) 0
                  <? nth i (sides cube (Position h)) 0) = false)
  /\ (forall tmin tmax, Cube_slabs cube ray = Some (tmin, tmax) ->
        (tmin <? 0) = true -> (tmax <? 0) = true -> Cube_Intersect cube ray = None).
Proof.
  unfold Cube_Intersect. split.
  - intros h.
    destruct (Cube_slabs cube ray) as [[tmin tmax]|]; [|discriminate].
    assert (Hgen : forall t, (t <? 0) = false -> t = (if tmin <? 0 then tmax else tmin) ->
              Some (mkHit (At ray t) (Cube_NormalAt cube (At ray t)) t (ObjCube cube)) = Some h ->
              exists tmin' tmax',
                Some (tmin, tmax) = Some (tmin', tmax')
                /\ T h = (if tmin' <? 0 then tmax' else tmin')
                /\ (T h <? 0) = false
                /\ Position h = At ray (T h)
                /\ In (Normal h) normals
                /\ exists i, (i < 6)%nat
                     /\ Normal h = nth i normals (mkVector 0 0 0)
                     /\ forall j, (j < 6)%nat ->
                          (nth j (sides cube (Position h)) 0
                           <? nth i (sides cube (Position h)) 0) = false).
    { intros t Ht Hsel [= <-]. cbn [T Position Normal].
      destruct (Cube_NormalAt_nearest cube (At ray t)) as (i & Hi & Hn & Hnear).
      exists tmin, tmax.
      split; [reflexivity|]. split; [exact Hsel|]. split; [exact Ht|].
      split; [reflexivity|]. split.
      - rewrite Hn. apply nth_In. exact Hi.
      - exists i. auto. }
    destruct (tmin <? 0) eqn:Hmin.
    + destruct (tmax <? 0) eqn:Hmax; [discriminate|]. apply Hgen; auto.
    + apply Hgen; auto.
  - intros tmin tmax -> -> ->. reflexivity.
Qed.

Lemma Cube_Intersect_hit_witness :
  exists tmin tmax,
    Cube_slabs Examples.box Examples.ray_into_box = Some (tmin, tmax)
    /\ 4 = (if tmin <? 0 then tmax else tmin)
    /\ In (mkVector 0 0 (-1)) normals.
Proof.
  destruct (Cube_Intersect_hit Examples.box Examples.ray_into_box) as [Hhit _].
  destruct (Hhit (mkHit (mkVector 0 0 (-1)) (mkVector 0 0 (-1)) 4 (ObjCube Examples.box)) eq_refl)
    as (tmin & tmax & Hslabs & Ht & _ & _ & Hin & _).
  exists tmin, tmax. auto.
Defined.

(* ================================================================= *)
(** ** Scene query *)

(** Every [Intersect] stores its receiver in the [Object] field of the Hit. *)
Lemma Intersect_Obj (o : Object) (ray : Ray) (h : Hit) :
  Intersect o ray = Some h -> Obj h = o.
Proof.
  destruct o as [s|p|t|c|c]; simpl.
  - unfold Sphere_Intersect. destruct (_ <? 0); [discriminate|]. intros [= <-]. reflexivity.
  - unfold Plane_Intersect. destruct (0.0001 <? _); [|discriminate].
    destruct (0 <=? _); [|discriminate]. intros [= <-]. reflexivity.
  - unfold Triangle_Intersect. destruct (_ <? 0.0001); [discriminate|].
    destruct (_ || _); [discriminate|]. destruct (_ || _); [discriminate|].
    destruct (0.0001 <? _); [|discriminate]. intros [= <-]. reflexivity.
  - unfold Cylinder_Intersect. destruct (_ <? 0); [discriminate|]. intros [= <-]. reflexivity.
  - unfold Cube_Intersect. destruct (Cube_slabs c ray) as [[tmin tmax]|]; [|discriminate].
    destruct (tmin <? 0); [destruct (tmax <? 0); [discriminate|]|]; intros [= <-]; reflexivity.
Qed.

Lemma closest_inv_step (ray : Ray) (seen : list Object) (st : Closest) (o : Object) :
  closest_inv ray seen st -> closest_inv ray (seen ++ [o]) (closest_step ray st o).
Proof.
  unfold closest_inv, closest_step.
  destruct st as [[h|] [ob|] d]; cbn [closestHit closestObject closestDistance];
    try contradiction.
  - intros (Hd & Hin & Hhit & Hfin & Hmin). subst d.
    destruct (Intersect o ray) as [h2|] eqn:Ho.
    + destruct (T h2 <? T h) eqn:Hlt; cbn [closestHit closestObject closestDistance].
      * split; [reflexivity|]. split; [apply in_or_app; right; left; reflexivity|].
        split; [exact Ho|]. split; [exact (ltb_trans _ _ _ Hlt Hfin)|].
        intros o' h' Hin' Hhit'. apply in_app_or in Hin'.
        destruct Hin' as [Hin' | [<- | []]].
        -- apply not_ltb_below with (z := T h); eauto.
        -- rewrite Ho in Hhit'. injection Hhit' as <-. apply ltb_irrefl.
      * split; [reflexivity|]. split; [apply in_or_app; left; exact Hin|].
        split; [exact Hhit|]. split; [exact Hfin|].
        intros o' h' Hin' Hhit'. apply in_app_or in Hin'.
        destruct Hin' as [Hin' | [<- | []]]; eauto.
        rewrite Ho in Hhit'. injection Hhit' as <-. exact Hlt.
    + split; [reflexivity|]. split; [apply in_or_app; left; exact Hin|].
      split; [exact Hhit|]. split; [exact Hfin|].
      intros o' h' Hin' Hhit'. apply in_app_or in Hin'.
      destruct Hin' as [Hin' | [<- | []]]; eauto.
      rewrite Ho in Hhit'. discriminate.
  - intros (Hd & Hmin). subst d.
    destruct (Intersect o ray) as [h2|] eqn:Ho.
    + destruct (T h2 <? infinity) eqn:Hlt; cbn [closestHit closestObject closestDistance].
      * split; [reflexivity|]. split; [apply in_or_app; right; left; reflexivity|].
        split; [exact Ho|]. split; [exact Hlt|].
        intros o' h' Hin' Hhit'. apply in_app_or in Hin'.
        destruct Hin' as [Hin' | [<- | []]].
        -- apply not_ltb_below with (z := infinity); eauto.
        -- rewrite Ho in Hhit'. injection Hhit' as <-. apply ltb_irrefl.
      * split; [reflexivity|].
        intros o' h' Hin' Hhit'. apply in_app_or in Hin'.
        destruct Hin' as [Hin' | [<- | []]]; eauto.
        rewrite Ho in Hhit'. injection Hhit' as <-. exact Hlt.
    + split; [reflexivity|].
      intros o' h' Hin' Hhit'. apply in_app_or in Hin'.
      destruct Hin' as [Hin' | [<- | []]]; eauto.
      rewrite Ho in Hhit'. discriminate.
Qed.

Lemma closest_inv_loop (ray : Ray) (rest : list Object) :
  forall (seen : list Object) (st : Closest),
    closest_inv ray seen st ->
    closest_inv ray (seen ++ rest) (fold_left (closest_step ray) rest st).
Proof.
  induction rest as [|o rest IH]; intros seen st Hinv; simpl.
  - rewrite app_nil_r. exact Hinv.
  - replace (seen ++ o :: rest) with ((seen ++ [o]) ++ rest)
      by (rewrite <- app_assoc; reflexivity).
    apply IH. apply closest_inv_step. exact Hinv.
Qed.

Lemma FindClosestIntersection_inv (s : Scene) (ray : Ray) :
  closest_inv ray (Objects s)
    (fold_left (closest_step ray) (Objects s) (mkClosest None None infinity)).
Proof.
  apply (closest_inv_loop ray (Objects s) []).
  unfold closest_inv. simpl. split; [reflexivity | contradiction].
Qed.

(** C3, as the claim states it, fails: the cylinder reports a hit for the
    ray along its axis (with [t] NaN), and yet the scene query returns no
    hit and no shape. *)
Lemma FindClosestIntersection_drops_hit :
  Objects Examples.scene_pillar = [ObjCylinder Examples.pillar]
  /\ option_map T (Intersect (ObjCylinder Examples.pillar) Examples.ray_along_axis) = Some nan
  /\ FindClosestIntersection PerIteration Examples.scene_pillar Examples.ray_along_axis
     = (None, None).
Proof. repeat split; vm_compute; reflexivity. Qed.

(** C3 (amended): [FindClosestIntersection] tests every shape of the
    scene's collection.  It returns either a hit together with a shape
    reference, or no hit and no shape.  A returned hit was produced by a
    shape of the collection, the one its [Object] field names, which is also
    what the returned reference designates when loop variables are per
    iteration; its [t] is below +Inf and no shape of the collection reports
    a hit with a smaller [t].  No hit and no shape are returned exactly when
    no shape reports a hit whose [t] is below +Inf (every shape misses, or
    reports a [t] that is +Inf or NaN). *)
Theorem FindClosestIntersection_minimum (loopvar : LoopVar) (s : Scene) (ray : Ray) :
  match FindClosestIntersection loopvar s ray with
  | (Some h, Some o) =>
      In (Obj h) (Objects s) /\ Intersect (Obj h) ray = Some h
      /\ (loopvar = PerIteration -> o = Obj h)
      /\ (T h <? infinity) = true
      /\ forall o' h', In o' (Objects s) -> Intersect o' ray = Some h' ->
                       (T h' <? T h) = false
  | (None, None) =>
      forall o' h', In o' (Objects s) -> Intersect o' ray = Some h' ->
                    (T h' <? infinity) = false
  | _ => False
  end.
Proof.
  pose proof (FindClosestIntersection_inv s ray) as H.
  unfold FindClosestIntersection, closest_inv in *.
  destruct (fold_left (closest_step ray) (Objects s) (mkClosest None None infinity))
    as [[h|] [o|] d]; cbn [closestHit closestObject closestDistance option_map] in *;
    try contradiction.
  - destruct H as (_ & Hin & Hhit & Hfin & Hmin).
    rewrite (Intersect_Obj _ _ _ Hhit).
    split; [exact Hin|]. split; [exact Hhit|].
    split; [intros ->; reflexivity|]. split; [exact Hfin | exact Hmin].
  - destruct H as (_ & H). exact H.
Qed.

Lemma FindClosestIntersection_minimum_witness :
  In (ObjCube Examples.small_box) (Objects Examples.scene_box_wall)
  /\ (4.5 <? infinity) = true
  /\ (forall o' h', In o' (Objects Examples.scene_box_wall) ->
        Intersect o' Examples.ray_at_box = Some h' -> (T h' <? 4.5) = false).
Proof.
  pose proof (FindClosestIntersection_minimum PerIteration Examples.scene_box_wall
                Examples.ray_at_box) as H.
  vm_compute FindClosestIntersection in H. cbn [Obj T] in H.
  destruct H as (Hin & _ & _ & Hfin & Hmin).
  split; [exact Hin|]. split; [exact Hfin | exact Hmin].
Defined.

Lemma last_nonempty {A : Type} (l : list A) (d d' : A) :
  l <> [] -> last l d = last l d'.
Proof.
  induction l as [|a l IH]; [congruence | intros _].
  destruct l as [|b l]; [reflexivity|].
  change (last (b :: l) d = last (b :: l) d'). apply IH. discriminate.
Qed.

(** When one variable serves the whole loop, the reference that comes with
    a hit designates the last shape of the collection, whichever shape
    produced the hit. *)
Lemma FindClosestIntersection_per_loop (s : Scene) (ray : Ray) (h : Hit) (o : Object) :
  FindClosestIntersection PerLoop s ray = (Some h, Some o) ->
  o = last (Objects s) (Obj h).
Proof.
  pose proof (FindClosestIntersection_inv s ray) as H.
  unfold FindClosestIntersection, closest_inv in *.
  destruct (fold_left (closest_step ray) (Objects s) (mkClosest None None infinity))
    as [[h0|] [o0|] d]; cbn [closestHit closestObject closestDistance option_map] in *;
    try contradiction; try discriminate.
  destruct H as (_ & Hin & _). intros [= <- <-]. unfold deref.
  apply last_nonempty. intros Hnil. rewrite Hnil in Hin. contradiction.
Qed.

(** The box is hit in front of the wall; with a per-loop variable the
    reference returned with the hit of the box designates the wall. *)
Lemma FindClosestIntersection_per_loop_witness :
  ObjPlane Examples.wall
  = last (Objects Examples.scene_box_wall) (ObjCube Examples.small_box).
Proof.
  apply (FindClosestIntersection_per_loop Examples.scene_box_wall Examples.ray_at_box
           (mkHit (mkVector 0.25 0.25 4.5) (mkVector 0 0 (-1)) 4.5
                  (ObjCube Examples.small_box))).
  vm_compute. reflexivity.
Defined.

(* ================================================================= *)
(** ** Shading *)

Section ShadingFacts.

Variable pow : float -> float -> float.

(** The spec's "max(0, x)" is the larger of 0 and [x]: not below either,
    and one of the two. *)
Lemma atLeast0_max (x : float) :
  (atLeast0 x <? 0) = false /\ (atLeast0 x <? x) = false
  /\ (atLeast0 x = 0 \/ atLeast0 x = x).
Proof.
  unfold atLeast0. destruct (x <? 0) eqn:E.
  - split; [apply ltb_irrefl|]. split; [|left; reflexivity].
    destruct (0 <? x) eqn:F; [|reflexivity].
    pose proof (ltb_trans _ _ _ E F) as C. rewrite ltb_irrefl in C. discriminate C.
  - split; [exact E|]. split; [apply ltb_irrefl | right; reflexivity].
Qed.

(** A channel of the contribution of one light is the channel's diffuse
    and specular terms of the formula, added and attenuated. *)
Lemma lightContribution_channel (channel : Color -> float) (m : Material) (hit : Hit)
      (ray : Ray) (light : Light) :
  In channel [R; G; B] ->
  channel (lightContribution pow m hit ray light)
  = (diffuseTerm m hit light (channel (Mat_Color m))
     + specularTerm pow m hit ray light (channel (Light_Color light)))
    * attenuationAt hit light.
Proof.
  intros [<- | [<- | [<- | []]]]; reflexivity.
Qed.

(** The loop over the lights accumulates each channel as the formula does. *)
Lemma fold_lights_channel (channel : Color -> float) (m : Material) (hit : Hit) (ray : Ray)
      (lights : list Light) :
  In channel [R; G; B] ->
  forall base,
    channel (fold_left (fun color light =>
                          Color_Add color (lightContribution pow m hit ray light))
                       lights base)
    = accumulateLights pow channel m hit ray (channel base) lights.
Proof.
  intros Hch. induction lights as [|light lights IH]; intros base; simpl.
  - reflexivity.
  - rewrite IH. f_equal.
    rewrite <- (lightContribution_channel channel m hit ray light Hch).
    destruct Hch as [<- | [<- | [<- | []]]]; reflexivity.
Qed.

Lemma atMost1_bound (x : float) : (1 <? atMost1 x) = false.
Proof.
  unfold atMost1. destruct (1 <? x) eqn:E; [apply ltb_irrefl | exact E].
Qed.

(** C8: [ComputeColor] is the formula of the specification: for each
    channel the ambient term, materialColor x ambientCoefficient, plus the
    contributions of the lights accumulated in the order of the scene's
    collection, each (diffuse + specular) x 1/(1 + 0.1 distance) with
    diffuse = materialColor x diffuseCoefficient x max(0, normal . lightDir)
    and specular = lightColor x specularCoefficient x
    max(0, viewDir . reflectDir)^shininess, and each component of the result
    clamped to at most 1: no component of the color returned is above 1.
    The max(0, .) of the formula is the larger of 0 and its argument. *)
Theorem ComputeColor_formula (m : Material) (hit : Hit) (s : Scene) (ray : Ray) :
  ComputeColor pow m hit s ray = ShadingFormula pow m hit s ray
  /\ (1 <? R (ComputeColor pow m hit s ray)) = false
  /\ (1 <? G (ComputeColor pow m hit s ray)) = false
  /\ (1 <? B (ComputeColor pow m hit s ray)) = false
  /\ (forall x, (atLeast0 x <? 0) = false /\ (atLeast0 x <? x) = false
                /\ (atLeast0 x = 0 \/ atLeast0 x = x)).
Proof.
  assert (Heq : ComputeColor pow m hit s ray = ShadingFormula pow m hit s ray).
  { set (ambient := Color_Scale (Mat_Color m) (AmbientCoefficient m)).
    pose proof (fold_lights_channel R m hit ray (Lights s) (or_introl eq_refl) ambient) as HR.
    pose proof (fold_lights_channel G m hit ray (Lights s)
                  (or_intror (or_introl eq_refl)) ambient) as HG.
    pose proof (fold_lights_channel B m hit ray (Lights s)
                  (or_intror (or_intror (or_introl eq_refl))) ambient) as HB.
    unfold ComputeColor, ShadingFormula, shadedChannel. cbv zeta. fold ambient.
    change (R (Mat_Color m) * AmbientCoefficient m) with (R ambient).
    change (G (Mat_Color m) * AmbientCoefficient m) with (G ambient).
    change (B (Mat_Color m) * AmbientCoefficient m) with (B ambient).
    rewrite <- HR, <- HG, <- HB. reflexivity. }
  rewrite Heq. unfold ShadingFormula, shadedChannel. cbn [R G B].
  repeat split; try apply atMost1_bound; apply atLeast0_max.
Qed.

End ShadingFacts.

(* ================================================================= *)
(** ** The recursive tracer *)

Section TracerFacts.

Variable loopvar : LoopVar.
Variable pow : float -> float -> float.
Variable spawn_origin : Ray -> Vector -> Vector.
Variable relative_index : float -> bool -> float.

Let trace := traceRay loopvar pow spawn_origin relative_index.

Lemma traceRay_exhausted (scene : Scene) (ray : Ray) (depth : int) (inside : bool) :
  (depth <= 0)%Z -> trace scene ray depth inside = black.
Proof.
  intros Hd. unfold trace, traceRay.
  destruct (Z.to_nat depth); simpl;
    (replace (depth <=? 0)%Z with true by (symmetry; apply Z.leb_le; exact Hd));
    reflexivity.
Qed.

(** One unfolding of the recursion: the body of [traceRay] below the test
    of [depth], with the recursive calls at [depth - 1]. *)
Lemma traceRay_unfold (scene : Scene) (ray : Ray) (depth : int) (inside : bool) :
  (0 < depth)%Z ->
  trace scene ray depth inside
  = match FindClosestIntersection loopvar scene ray with
    | (Some hit, Some object) =>
        let m := Object_Material object in
        let hitColor :=
          colorAfterReflection loopvar pow spawn_origin relative_index scene ray depth inside
              hit object in
        if 0 <? Transparency m then
          let '(refractionRay, totalInternalReflection) :=
            Ray_Refract spawn_origin relative_index ray (Normal hit) (RefractiveIndex m) inside in
          if totalInternalReflection then
            Color_Add hitColor
              (Color_Scale (trace scene refractionRay (depth - 1) inside) (Transparency m))
          else
            Color_Add hitColor
              (Color_Scale (trace scene refractionRay (depth - 1) (negb inside))
                           (Transparency m))
        else hitColor
    | _ => black
    end.
Proof.
  intros Hd. unfold trace, traceRay at 1, colorAfterReflection.
  replace (Z.to_nat depth) with (S (Z.to_nat (depth - 1))) by lia.
  cbn [traceRay_rec].
  replace (depth <=? 0)%Z with false by (symmetry; apply Z.leb_gt; exact Hd).
  destruct (FindClosestIntersection loopvar scene ray) as [[hit|] [object|]]; reflexivity.
Qed.

(** Any fuel from [Z.to_nat depth] on gives the same color: the bound on
    the recursion is never what ends it. *)
Lemma traceRay_rec_enough_fuel (fuel : nat) :
  forall (scene : Scene) (ray : Ray) (depth : int) (inside : bool),
    (Z.to_nat depth <= fuel)%nat ->
    traceRay_rec loopvar pow spawn_origin relative_index fuel scene ray depth inside
    = trace scene ray depth inside.
Proof.
  induction fuel as [|fuel IH]; intros scene ray depth inside Hfuel.
  - rewrite traceRay_exhausted by lia. simpl.
    replace (depth <=? 0)%Z with true by (symmetry; apply Z.leb_le; lia). reflexivity.
  - destruct (Z.le_gt_cases depth 0) as [Hd | Hd].
    + rewrite traceRay_exhausted by exact Hd. simpl.
      replace (depth <=? 0)%Z with true by (symmetry; apply Z.leb_le; exact Hd).
      reflexivity.
    + rewrite traceRay_unfold by lia. unfold colorAfterReflection. cbn [traceRay_rec].
      replace (depth <=? 0)%Z with false by (symmetry; apply Z.leb_gt; lia).
      destruct (FindClosestIntersection loopvar scene ray) as [[hit|] [object|]];
        try reflexivity.
      cbv zeta.
      destruct (Ray_Refract spawn_origin relative_index ray (Normal hit)
                  (RefractiveIndex (Object_Material object)) inside)
        as [refractionRay [|]];
        rewrite !IH by lia; reflexivity.
Qed.

(** The query finds nothing when every shape misses. *)
Lemma FindClosestIntersection_all_miss (scene : Scene) (ray : Ray) :
  (forall o, In o (Objects scene) -> Intersect o ray = None) ->
  FindClosestIntersection loopvar scene ray = (None, None).
Proof.
  intros Hmiss.
  pose proof (FindClosestIntersection_inv scene ray) as H.
  unfold FindClosestIntersection, closest_inv in *.
  destruct (fold_left (closest_step ray) (Objects scene) (mkClosest None None infinity))
    as [[h|] [o|] d]; cbn [closestHit closestObject closestDistance] in *;
    try contradiction.
  - destruct H as (_ & Hin & Hhit & _). rewrite (Hmiss o Hin) in Hhit. discriminate.
  - reflexivity.
Qed.

(** C7: [traceRay] called with [depth <= 0] returns exactly black whatever
    the scene holds; and at any depth it returns exactly black when the
    scene query reports no hit, which is the case when every shape of the
    scene misses the ray. *)
Theorem traceRay_black (scene : Scene) (ray : Ray) (depth : int) (inside : bool) :
  ((depth <= 0)%Z -> traceRay loopvar pow spawn_origin relative_index scene ray depth inside =
      black)
  /\ (fst (FindClosestIntersection loopvar scene ray) = None ->
      traceRay loopvar pow spawn_origin relative_index scene ray depth inside = black)
  /\ ((forall o, In o (Objects scene) -> Intersect o ray = None) ->
      traceRay loopvar pow spawn_origin relative_index scene ray depth inside = black).
Proof.
  fold trace.
  assert (Hnone : fst (FindClosestIntersection loopvar scene ray) = None ->
                  trace scene ray depth inside = black).
  { intros Hfst. destruct (Z.le_gt_cases depth 0) as [Hd | Hd].
    - apply traceRay_exhausted. exact Hd.
    - rewrite traceRay_unfold by lia.
      destruct (FindClosestIntersection loopvar scene ray) as [[hit|] [object|]];
        simpl in Hfst; try discriminate; reflexivity. }
  split; [apply traceRay_exhausted|]. split; [exact Hnone|].
  intros Hmiss. apply Hnone.
  rewrite (FindClosestIntersection_all_miss scene ray Hmiss). reflexivity.
Qed.

(** C2: at a hit on a material with transparency > 0, [traceRay] takes the
    local color with the reflection term added and adds to it the result of
    one recursive call at [depth - 1], scaled by the material's transparency.
    The refraction formula is applied to the direction of the ray, the normal
    of the hit and the index [eta] that belongs to the material's index and
    the inside flag.  When its discriminant is not positive (total internal
    reflection) the call is on the ray along the mirror reflection
    [d - 2 (d . n) n] of the incoming direction, with the inside flag as it
    is; when the discriminant is positive the call is on the ray along the
    refracted direction [eta d - (eta (d . n) + sqrt discriminant) n], with
    the inside flag flipped.  [utility.Refract] gives no vector and reports
    total internal reflection in the first case, and gives the refracted
    direction in the second. *)
Theorem traceRay_transparency (scene : Scene) (ray : Ray) (depth : int) (inside : bool)
        (hit : Hit) (object : Object) :
  (0 < depth)%Z ->
  FindClosestIntersection loopvar scene ray = (Some hit, Some object) ->
  let m := Object_Material object in
  let n := Normal hit in
  let d := Direction ray in
  let eta := relative_index (RefractiveIndex m) inside in
  let base :=
    colorAfterReflection loopvar pow spawn_origin relative_index scene ray depth inside
                         hit object in
  let disc := 1 - eta * eta * (1 - Dot d n * Dot d n) in
  let refracted := Subtract (Scale d eta) (Scale n (eta * Dot d n + PrimFloat.sqrt disc)) in
  let reflected := Subtract d (Scale n (2 * Dot d n)) in
  (0 <? Transparency m) = true ->
  ((disc <=? 0) = true ->
     Refract d n eta = (None, true)
     /\ traceRay loopvar pow spawn_origin relative_index scene ray depth inside
        = Color_Add base
            (Color_Scale
               (traceRay loopvar pow spawn_origin relative_index scene
                         (mkRay (spawn_origin ray n) reflected) (depth - 1) inside)
               (Transparency m)))
  /\ ((0 <? disc) = true ->
      Refract d n eta = (Some refracted, false)
      /\ traceRay loopvar pow spawn_origin relative_index scene ray depth inside
         = Color_Add base
             (Color_Scale
                (traceRay loopvar pow spawn_origin relative_index scene
                          (mkRay (spawn_origin ray n) refracted) (depth - 1) (negb inside))
                (Transparency m))).
Proof.
  intros Hd Hhit m n d eta base disc refracted reflected Htransp. fold trace.
  rewrite traceRay_unfold by exact Hd. rewrite Hhit. cbv zeta.
  fold m n base. rewrite Htransp.
  unfold Ray_Refract, Refract. fold d eta. cbv zeta. fold disc.
  split.
  - intros Hle. rewrite (leb_not_ltb _ _ Hle). split; reflexivity.
  - intros Hlt. rewrite Hlt. split; reflexivity.
Qed.

End TracerFacts.

Lemma traceRay_rec_enough_fuel_witness :
  traceRay_rec PerIteration Examples.pow0 Examples.keep_origin Examples.relative_index 7
      Examples.scene_box
               Examples.ray_at_box 2 false
  = traceRay PerIteration Examples.pow0 Examples.keep_origin Examples.relative_index
      Examples.scene_box
             Examples.ray_at_box 2 false.
Proof.
  apply (traceRay_rec_enough_fuel PerIteration Examples.pow0 Examples.keep_origin
      Examples.relative_index 7).
  simpl. lia.
Defined.

Lemma traceRay_black_witness :
  traceRay PerIteration Examples.pow0 Examples.keep_origin Examples.relative_index
      Examples.scene_box
           Examples.ray_at_box 0 false = black
  /\ traceRay PerIteration Examples.pow0 Examples.keep_origin Examples.relative_index
      Examples.scene_empty
              Examples.ray_forward 5 false = black.
Proof.
  split.
  - apply (proj1 (traceRay_black PerIteration Examples.pow0 Examples.keep_origin
      Examples.relative_index _ _ _ _)).
    discriminate.
  - apply (proj2 (proj2 (traceRay_black PerIteration Examples.pow0 Examples.keep_origin
      Examples.relative_index
                           _ _ _ _))).
    intros o [].
Defined.

Lemma traceRay_transparency_witness :
  traceRay PerIteration Examples.pow0 Examples.keep_origin Examples.relative_index
           (Examples.scene_pane 1.5) Examples.ray_slanted 2 true
  = Color_Add
      (colorAfterReflection PerIteration Examples.pow0 Examples.keep_origin
         Examples.relative_index (Examples.scene_pane 1.5) Examples.ray_slanted 2 true
         Examples.hit_slanted (ObjPlane (Examples.pane 1.5)))
      (Color_Scale
         (traceRay PerIteration Examples.pow0 Examples.keep_origin Examples.relative_index
            (Examples.scene_pane 1.5)
            (mkRay (mkVector 0 1 0) (mkVector 0.5 0.5 0)) (2 - 1) true)
         0.5)
  /\ traceRay PerIteration Examples.pow0 Examples.keep_origin Examples.relative_index
              (Examples.scene_pane 1.5) Examples.ray_slanted 2 false
     = Color_Add
         (colorAfterReflection PerIteration Examples.pow0 Examples.keep_origin
            Examples.relative_index (Examples.scene_pane 1.5) Examples.ray_slanted 2 false
            Examples.hit_slanted (ObjPlane (Examples.pane 1.5)))
         (Color_Scale
            (traceRay PerIteration Examples.pow0 Examples.keep_origin
               Examples.relative_index (Examples.scene_pane 1.5)
               (mkRay (mkVector 0 1 0)
                  (Subtract (Scale (mkVector 0.5 (-0.5) 0) (1 / 1.5))
                     (Scale (mkVector 0 1 0)
                        (1 / 1.5 * (-0.5)
                         + PrimFloat.sqrt (1 - 1 / 1.5 * (1 / 1.5) * (1 - -0.5 * -0.5))))))
               (2 - 1) true)
            0.5).
Proof.
  split.
  - apply (proj1 (traceRay_transparency PerIteration Examples.pow0 Examples.keep_origin
                    Examples.relative_index (Examples.scene_pane 1.5) Examples.ray_slanted
                    2 true Examples.hit_slanted (ObjPlane (Examples.pane 1.5))
                    ltac:(lia) eq_refl eq_refl) eq_refl).
  - apply (proj2 (traceRay_transparency PerIteration Examples.pow0 Examples.keep_origin
                    Examples.relative_index (Examples.scene_pane 1.5) Examples.ray_slanted
                    2 false Examples.hit_slanted (ObjPlane (Examples.pane 1.5))
                    ltac:(lia) eq_refl eq_refl) eq_refl).
Defined.

(** The inside flag decides the color.  [Examples.ray_steep], traced inside
    the glass at depth 3, is refracted at the sheet, and the refracted ray
    is traced at depth 2 with the flag flipped: it is refracted again and
    the color is 1.75 blue.  With the flag kept the refracted ray would be
    reflected totally at its next hit and the color would be 1.5 blue. *)
Lemma traceRay_flag_flipped_not_kept :
  traceRay PerIteration Examples.pow0 Examples.keep_origin Examples.relative_index
           (Examples.scene_pane 1.5) Examples.ray_steep 3 true
  = mkColor 0 0 1.75
  /\ Color_Add (mkColor 0 0 1)
       (Color_Scale
          (traceRay PerIteration Examples.pow0 Examples.keep_origin Examples.relative_index
             (Examples.scene_pane 1.5)
             (fst (Ray_Refract Examples.keep_origin Examples.relative_index
                     Examples.ray_steep (mkVector 0 1 0) 1.5 true))
             2 false)
          0.5)
     = mkColor 0 0 1.75
  /\ Color_Add (mkColor 0 0 1)
       (Color_Scale
          (traceRay PerIteration Examples.pow0 Examples.keep_origin Examples.relative_index
             (Examples.scene_pane 1.5)
             (fst (Ray_Refract Examples.keep_origin Examples.relative_index
                     Examples.ray_steep (mkVector 0 1 0) 1.5 true))
             2 true)
          0.5)
     = mkColor 0 0 1.5.
Proof. repeat split; vm_compute; reflexivity. Qed.

(** With a per-loop variable the color at a hit is shaded with the material
    of the last shape of the collection: the red box in front of the blue
    wall comes out blue. *)
Lemma traceRay_per_loop_example :
  traceRay PerIteration Examples.pow0 Examples.keep_origin Examples.relative_index
      Examples.scene_box_wall
           Examples.ray_at_box 1 false = mkColor 1 0 0
  /\ traceRay PerLoop Examples.pow0 Examples.keep_origin Examples.relative_index
      Examples.scene_box_wall
              Examples.ray_at_box 1 false = mkColor 0 0 1.
Proof. split; vm_compute; reflexivity. Qed.

(* ================================================================= *)
(** ** The renderer *)

Lemma Pixel_eqb_eq (p q : Pixel) : Pixel_eqb p q = true -> p = q.
Proof.
  destruct p as [x y], q as [x' y']. unfold Pixel_eqb. simpl.
  intros H. apply andb_prop in H. destruct H as [Hx Hy].
  apply Z.eqb_eq in Hx. apply Z.eqb_eq in Hy. subst. reflexivity.
Qed.

Lemma Pixel_eqb_sym (p q : Pixel) : Pixel_eqb p q = Pixel_eqb q p.
Proof. unfold Pixel_eqb. rewrite (Z.eqb_sym (fst p)), (Z.eqb_sym (snd p)). reflexivity. Qed.

Section RendererFacts.

Variable loopvar : LoopVar.
Variable pow : float -> float -> float.
Variable spawn_origin : Ray -> Vector -> Vector.
Variable relative_index : float -> bool -> float.
Variable inside0 : bool.

Let step := stepPixel loopvar pow spawn_origin relative_index inside0.

(** When [GetRay] fails for a sample, the goroutine of the pixel ends there,
    whatever it has accumulated and however many samples remain; it makes no
    further draw. *)
Lemma stepPixel_camera_error (r : Raytracer) (x y s : int) (color : Color)
      (rnd_u rnd : float) :
  GetRay (Scene_Camera (RT_Scene r))
         ((float64 x + rnd_u) / float64 (Width r - 1))
         ((float64 y + rnd) / float64 (Height r - 1)) = None ->
  step r (x, y) (Running s color (Some rnd_u)) rnd = Some Returned
  /\ forall rnd', step r (x, y) Returned rnd' = None.
Proof. unfold step, stepPixel. intros ->. split; reflexivity. Qed.

(** Under any schedule, the goroutine of a pixel ends up where its own
    draws take it: the draws of the other goroutines do not matter. *)
Lemma run_feed (r : Raytracer) (source : nat -> float) (sched : list Pixel) :
  forall (i : nat) (ts ts' : Tasks),
    run loopvar pow spawn_origin relative_index inside0 r source sched i ts = Some ts' ->
    forall p, feed loopvar pow spawn_origin relative_index inside0 r p (ts p) (drawsOf source p
        sched i)
              = Some (ts' p).
Proof.
  induction sched as [|q sched IH]; intros i ts ts' Hrun p; simpl in *.
  - injection Hrun as <-. reflexivity.
  - destruct (inRaster r q); [|discriminate].
    destruct (stepPixel loopvar pow spawn_origin relative_index inside0 r q (ts q) (source i))
      as [t|] eqn:Hstep; [|discriminate].
    specialize (IH _ _ _ Hrun p). unfold setTask in IH.
    rewrite (Pixel_eqb_sym p q) in IH.
    destruct (Pixel_eqb q p) eqn:Hqp.
    + apply Pixel_eqb_eq in Hqp. subst q. simpl. rewrite Hstep. exact IH.
    + exact IH.
Qed.

(** C6 (amended): two runs of [Render] on the same scene and render
    parameters produce the same color at every pixel whenever the goroutine
    of each pixel receives the same sequence of random numbers in both runs;
    the random source alone does not determine the buffer, since the schedule
    decides which goroutine receives which number. *)
Theorem Render_determined_by_draws (r : Raytracer) (source1 source2 : nat -> float)
        (sched1 sched2 : list Pixel) (img1 img2 : Image) :
  Render loopvar pow spawn_origin relative_index inside0 r source1 sched1 = Some img1 ->
  Render loopvar pow spawn_origin relative_index inside0 r source2 sched2 = Some img2 ->
  (forall p, inRaster r p = true ->
             drawsOf source1 p sched1 0 = drawsOf source2 p sched2 0) ->
  forall x y, img1 x y = img2 x y.
Proof.
  unfold Render. intros H1 H2 Hdraws x y.
  destruct (comesBack r); [|discriminate].
  destruct (run loopvar pow spawn_origin relative_index inside0 r source1 sched1 0 (fun _ =>
      startPixel r))
    as [ts1|] eqn:Hrun1; [|discriminate].
  destruct (run loopvar pow spawn_origin relative_index inside0 r source2 sched2 0 (fun _ =>
      startPixel r))
    as [ts2|] eqn:Hrun2; [|discriminate].
  destruct (forallb _ _) in H1; [|discriminate].
  destruct (forallb _ _) in H2; [|discriminate].
  injection H1 as <-. injection H2 as <-.
  unfold imageOf. destruct (inRaster r (x, y)) eqn:Hin; [|reflexivity].
  pose proof (run_feed _ _ _ _ _ _ Hrun1 (x, y)) as F1.
  pose proof (run_feed _ _ _ _ _ _ Hrun2 (x, y)) as F2.
  simpl in F1, F2. rewrite (Hdraws _ Hin) in F1. rewrite F1 in F2.
  injection F2 as ->. reflexivity.
Qed.

End RendererFacts.

Lemma stepPixel_camera_error_witness :
  stepPixel PerIteration Examples.pow0 Examples.keep_origin Examples.relative_index false
      Examples.tracer2
            (0, 0)%Z (Running 0 (mkColor 0 0 0) (Some 0.25)) 0.25 = Some Returned
  /\ forall rnd',
       stepPixel PerIteration Examples.pow0 Examples.keep_origin Examples.relative_index false
           Examples.tracer2
                 (0, 0)%Z Returned rnd' = None.
Proof.
  apply (stepPixel_camera_error PerIteration Examples.pow0 Examples.keep_origin
      Examples.relative_index false
           Examples.tracer2 0 0 0 (mkColor 0 0 0) 0.25 0.25).
  vm_compute. reflexivity.
Defined.

(** C4: with two samples per pixel and a camera that fails for the first
    sample of pixel (0, 0), the goroutine of that pixel returns at the
    failure.  It draws no further random number, so its second sample is
    never traced, and its buffer slot keeps the zero value of a fresh image,
    while the second sample alone would have been written as (127, 0, 0, 255);
    the other three pixels are rendered. *)
Theorem Render_camera_error_abandons_pixel :
  let step :=
    stepPixel PerIteration Examples.pow0 Examples.keep_origin Examples.relative_index false
        Examples.tracer2 in
  step (0, 0)%Z (Running 0 (mkColor 0 0 0) (Some 0.25)) 0.25 = Some Returned
  /\ step (0, 0)%Z Returned 0.75 = None
  /\ step (0, 0)%Z (Running 1 (mkColor 0 0 0) (Some 0.75)) 0.75
     = Some (Written (mkRGBA 127 0 0 255))
  /\ option_map (fun img : Image => (img 0 0, img 1 0, img 0 1, img 1 1)%Z)
       (Render PerIteration Examples.pow0 Examples.keep_origin Examples.relative_index false
           Examples.tracer2
               Examples.source_step Examples.sched_2)
     = Some (mkRGBA 0 0 0 0, mkRGBA 255 0 0 255, mkRGBA 255 0 0 255, mkRGBA 255 0 0 255).
Proof. cbv zeta. repeat split; vm_compute; reflexivity. Qed.

(** C6, as the claim states it, fails: with the same scene, the same render
    parameters and the same random source, the run in which the goroutine of
    pixel (0, 0) draws first paints that pixel red, and the run in which the
    goroutine of pixel (1, 0) draws first paints it black. *)
Lemma Render_depends_on_schedule :
  option_map (fun img : Image => img 0%Z 0%Z)
    (Render PerIteration Examples.pow0 Examples.keep_origin Examples.relative_index false
        Examples.tracer1
            Examples.source_step Examples.sched_a)
  = Some (mkRGBA 255 0 0 255)
  /\ option_map (fun img : Image => img 0%Z 0%Z)
       (Render PerIteration Examples.pow0 Examples.keep_origin Examples.relative_index false
           Examples.tracer1
               Examples.source_step Examples.sched_b)
     = Some (mkRGBA 0 0 0 255).
Proof. split; vm_compute; reflexivity. Qed.

Lemma Render_determined_by_draws_witness :
  option_map (fun img : Image => img 0%Z 0%Z)
    (Render PerIteration Examples.pow0 Examples.keep_origin Examples.relative_index false
        Examples.tracer1
            Examples.source_const Examples.sched_a)
  = option_map (fun img : Image => img 0%Z 0%Z)
      (Render PerIteration Examples.pow0 Examples.keep_origin Examples.relative_index false
          Examples.tracer1
              Examples.source_const Examples.sched_b).
Proof.
  destruct (Render PerIteration Examples.pow0 Examples.keep_origin Examples.relative_index false
      Examples.tracer1
              Examples.source_const Examples.sched_a) as [img1|] eqn:H1;
    [|vm_compute in H1; discriminate].
  destruct (Render PerIteration Examples.pow0 Examples.keep_origin Examples.relative_index false
      Examples.tracer1
              Examples.source_const Examples.sched_b) as [img2|] eqn:H2;
    [|vm_compute in H2; discriminate].
  simpl. f_equal.
  apply (Render_determined_by_draws _ _ _ _ _ _ _ _ _ _ _ _ H1 H2).
  intros p _. unfold Examples.sched_a, Examples.sched_b, Examples.source_const. simpl.
  repeat match goal with |- context [Pixel_eqb ?q p] => destruct (Pixel_eqb q p) end;
    reflexivity.
Defined.

(* ================================================================= *)
(** * Further properties of the code *)

(** ** Binary64 arithmetic *)

Lemma SFmul_comm a b : SFmul prec emax a b = SFmul prec emax b a.
Proof.
  destruct a as [sa|sa| |sa ma ea], b as [sb|sb| |sb mb eb]; simpl;
    try rewrite (xorb_comm sa sb); try reflexivity.
  rewrite (Pos.mul_comm ma mb), (Z.add_comm ea eb). reflexivity.
Qed.

Lemma float_mul_comm x y : x * y = y * x.
Proof. apply Prim2SF_inj. rewrite !mul_spec. apply SFmul_comm. Qed.

Lemma SFadd_comm a b : SFadd prec emax a b = SFadd prec emax b a.
Proof.
  destruct a as [sa|sa| |sa ma ea], b as [sb|sb| |sb mb eb]; simpl;
    try (destruct sa, sb; reflexivity); try reflexivity.
  rewrite (Z.min_comm ea eb), Z.add_comm. reflexivity.
Qed.

Lemma float_add_comm x y : x + y = y + x.
Proof. apply Prim2SF_inj. rewrite !add_spec. apply SFadd_comm. Qed.

Lemma Prim2SF_zero_inv x s : Prim2SF x = S754_zero s -> x = 0 \/ x = -0.
Proof.
  intros H. destruct s; [right | left]; apply Prim2SF_inj; rewrite H; reflexivity.
Qed.

Lemma Prim2SF_nan_inv x : Prim2SF x = S754_nan -> x = nan.
Proof. intros H. apply Prim2SF_inj. rewrite H. reflexivity. Qed.

(** Zero times anything is a zero or NaN. *)
Lemma zero_mul x : zero_or_nan (0 * x).
Proof.
  unfold zero_or_nan.
  pose proof (mul_spec 0 x) as H. change (Prim2SF 0) with (S754_zero false) in H.
  unfold SF64mul in H.
  destruct (Prim2SF x) as [s|s| |s m e]; simpl in H.
  - apply Prim2SF_zero_inv in H. tauto.
  - apply Prim2SF_nan_inv in H. tauto.
  - apply Prim2SF_nan_inv in H. tauto.
  - apply Prim2SF_zero_inv in H. tauto.
Qed.

(** Zero divided by anything is a zero or NaN. *)
Lemma zero_div x : zero_or_nan (0 / x).
Proof.
  unfold zero_or_nan.
  pose proof (div_spec 0 x) as H. change (Prim2SF 0) with (S754_zero false) in H.
  unfold SF64div in H.
  destruct (Prim2SF x) as [s|s| |s m e]; simpl in H.
  - apply Prim2SF_nan_inv in H. tauto.
  - apply Prim2SF_zero_inv in H. tauto.
  - apply Prim2SF_nan_inv in H. tauto.
  - apply Prim2SF_zero_inv in H. tauto.
Qed.

(** Anything divided by zero is NaN or an infinity. *)
Lemma div_zero x : not_finite (x / 0).
Proof.
  unfold not_finite. rewrite div_spec. change (Prim2SF 0) with (S754_zero false).
  unfold SF64div. destruct (Prim2SF x) as [s|s| |s m e]; simpl; exact I.
Qed.

Lemma binary_round_aux_sign s m e l :
  match SpecFloat.binary_round_aux prec emax s m e l with
  | S754_zero s' | S754_infinity s' | S754_finite s' _ _ => s' = s
  | S754_nan => True
  end.
Proof.
  unfold binary_round_aux.
  destruct (shr_fexp prec emax m e l) as [mrs' e'].
  destruct (shr_fexp prec emax _ e' loc_Exact) as [mrs'' e''].
  destruct (shr_m mrs''); auto.
  destruct (e'' <=? emax - prec)%Z; reflexivity.
Qed.

Lemma sqrt_not_negative x : (PrimFloat.sqrt x <? 0) = false.
Proof.
  rewrite ltb_spec, sqrt_spec. change (Prim2SF 0) with (S754_zero false).
  unfold SF64sqrt, SFsqrt.
  destruct (Prim2SF x) as [s|s| |s m e]; try (destruct s; reflexivity); try reflexivity.
  destruct s; [reflexivity|].
  destruct (SFsqrt_core_binary prec emax (Z.pos m) e) as [[mz ez] lz].
  pose proof (binary_round_aux_sign false mz ez lz) as H.
  destruct (SpecFloat.binary_round_aux prec emax false mz ez lz); subst; reflexivity.
Qed.

Lemma ltb_asym x y : (x <? y) = true -> (y <? x) = false.
Proof.
  intros H. destruct (y <? x) eqn:E; [|reflexivity].
  rewrite <- (ltb_irrefl x). symmetry. exact (ltb_trans _ _ _ H E).
Qed.

Lemma ltb_nan_l x : (nan <? x) = false.
Proof. rewrite ltb_spec. reflexivity. Qed.

Lemma ltb_nan_r x : (x <? nan) = false.
Proof.
  rewrite ltb_spec. change (Prim2SF nan) with S754_nan.
  destruct (Prim2SF x); reflexivity.
Qed.

Lemma SFltb_below_not_below a b c :
  SFltb a b = true -> SFltb c b = false -> c = S754_nan \/ SFltb a c = true.
Proof.
  destruct c as [sc|sc| |sc mc ec]; [ | | left; reflexivity | ]; intros Hab Hcb; right;
    destruct a as [sa|sa| |sa ma ea], b as [sb|sb| |sb mb eb];
    try (destruct (SFltb (S754_finite sa ma ea) (S754_finite sc mc ec)) eqn:Hac;
         [reflexivity|];
         exfalso;
         assert (Hcb' : ~ (SFltb (S754_finite sc mc ec) (S754_finite sb mb eb) = true))
           by (rewrite Hcb; discriminate);
         assert (Hac' : ~ (SFltb (S754_finite sa ma ea) (S754_finite sc mc ec) = true))
           by (rewrite Hac; discriminate);
         rewrite SFltb_finite in Hab, Hcb', Hac';
         destruct sa, sb, sc; unfold lexlt in *; try tauto; lia);
    unfold SFltb, SFcompare in *;
    repeat match goal with s : bool |- _ => destruct s end;
    try discriminate; try reflexivity.
Qed.

(** What is not below a bound is above everything below the bound, unless
    it is NaN. *)
Lemma ltb_below_not_below x y z :
  (x <? y) = true -> (z <? y) = false -> z = nan \/ (x <? z) = true.
Proof.
  rewrite !ltb_spec. intros H1 H2.
  destruct (SFltb_below_not_below _ _ _ H1 H2) as [H | H]; [left | right; exact H].
  apply Prim2SF_inj. rewrite H. reflexivity.
Qed.

(** NaN spreads through every operation. *)
Lemma nan_mul_r x : x * nan = nan.
Proof.
  apply Prim2SF_nan_inv. rewrite mul_spec. change (Prim2SF nan) with S754_nan.
  unfold SF64mul. destruct (Prim2SF x); reflexivity.
Qed.

Lemma nan_mul_l x : nan * x = nan.
Proof. rewrite float_mul_comm. apply nan_mul_r. Qed.

Lemma nan_add_r x : x + nan = nan.
Proof.
  apply Prim2SF_nan_inv. rewrite add_spec. change (Prim2SF nan) with S754_nan.
  unfold SF64add. destruct (Prim2SF x); reflexivity.
Qed.

Lemma nan_add_l x : nan + x = nan.
Proof. rewrite float_add_comm. apply nan_add_r. Qed.

Lemma nan_sub_l x : nan - x = nan.
Proof.
  apply Prim2SF_nan_inv. rewrite sub_spec. change (Prim2SF nan) with S754_nan.
  unfold SF64sub. destruct (Prim2SF x); reflexivity.
Qed.

(** Anything times a zero is a zero or NaN. *)
Lemma mul_zero x : zero_or_nan (x * 0).
Proof. rewrite float_mul_comm. apply zero_mul. Qed.

Lemma mul_neg_zero x : zero_or_nan (x * -0).
Proof.
  unfold zero_or_nan.
  pose proof (mul_spec x (-0)) as H. change (Prim2SF (-0)) with (S754_zero true) in H.
  unfold SF64mul in H.
  destruct (Prim2SF x) as [s|s| |s m e]; simpl in H.
  - apply Prim2SF_zero_inv in H. tauto.
  - apply Prim2SF_nan_inv in H. tauto.
  - apply Prim2SF_nan_inv in H. tauto.
  - apply Prim2SF_zero_inv in H. tauto.
Qed.

(** The zeros and NaN are closed under the operations of the quadratic
    formula, and none of them is below zero. *)
Ltac zn_cases :=
  repeat match goal with
         | H : zero_or_nan _ |- _ => destruct H as [-> | [-> | ->]]
         end.

Lemma zn_add x y : zero_or_nan x -> zero_or_nan y -> zero_or_nan (x + y).
Proof. intros Hx Hy. zn_cases; vm_compute; auto. Qed.

Lemma zn_sub x y : zero_or_nan x -> zero_or_nan y -> zero_or_nan (x - y).
Proof. intros Hx Hy. zn_cases; vm_compute; auto. Qed.

Lemma zn_mul x y : zero_or_nan x -> zero_or_nan y -> zero_or_nan (x * y).
Proof. intros Hx Hy. zn_cases; vm_compute; auto. Qed.

Lemma zn_opp x : zero_or_nan x -> zero_or_nan (- x).
Proof. intros Hx. zn_cases; vm_compute; auto. Qed.

Lemma zn_sqrt x : zero_or_nan x -> zero_or_nan (PrimFloat.sqrt x).
Proof. intros Hx. zn_cases; vm_compute; auto. Qed.

Lemma zn_scale k x : zero_or_nan x -> zero_or_nan (k * x).
Proof.
  intros [-> | [-> | ->]].
  - apply mul_zero.
  - apply mul_neg_zero.
  - rewrite nan_mul_r. unfold zero_or_nan. auto.
Qed.

Lemma zn_not_below_zero x : zero_or_nan x -> (x <? 0) = false.
Proof. intros Hx. zn_cases; reflexivity. Qed.

Lemma zn_div_zero x : zero_or_nan x -> x / 0 = nan.
Proof. intros Hx. zn_cases; reflexivity. Qed.

(* ================================================================= *)
(** ** Vectors *)

(** [Vector.Add] and [Vector.Dot] are commutative, bit for bit. *)
Theorem Add_Dot_comm (v w : Vector) : Add v w = Add w v /\ Dot v w = Dot w v.
Proof.
  unfold Add, Dot. split.
  - rewrite (float_add_comm (X v)), (float_add_comm (Y v)), (float_add_comm (Z v)).
    reflexivity.
  - rewrite (float_mul_comm (X v)), (float_mul_comm (Y v)), (float_mul_comm (Z v)).
    reflexivity.
Qed.

(** [Vector.Length] is never below zero, whatever the components (it is
    NaN when a component is). *)
Theorem Length_not_negative (v : Vector) : (Length v <? 0) = false.
Proof. apply sqrt_not_negative. Qed.

(** [Vector.Normalize] of a vector whose [Length] is zero raises no error
    and returns no zero vector: every component of the result is NaN or an
    infinity. *)
Theorem Normalize_zero_length (v : Vector) :
  Length v = 0 ->
  not_finite (X (Normalize v)) /\ not_finite (Y (Normalize v))
  /\ not_finite (Z (Normalize v)).
Proof.
  unfold Normalize. intros ->. cbn [X Y Z]. repeat split; apply div_zero.
Qed.

Lemma Normalize_zero_length_witness :
  not_finite infinity /\ not_finite nan /\ not_finite nan.
Proof.
  apply (Normalize_zero_length Examples.tiny). vm_compute. reflexivity.
Defined.

(* ================================================================= *)
(** ** Shapes *)

(** [Sphere.Intersect] has no guard against a ray without a direction: when
    every component of the direction is a zero, the coefficients [a] and [b]
    vanish, the discriminant is a zero or NaN and so not below 0, and
    [t = (-b - sqrt discriminant) / (2 a)] is NaN.  Whatever the sphere and
    the origin of the ray, the result is a Hit and never nil, and its [t],
    its position and its normal are NaN throughout. *)
Theorem Sphere_Intersect_zero_direction (s : Sphere) (ray : Ray) :
  zero_vector (Direction ray) ->
  exists h, Sphere_Intersect s ray = Some h
    /\ T h = nan
    /\ Position h = mkVector nan nan nan
    /\ Normal h = mkVector nan nan nan.
Proof.
  destruct ray as [o [dx dy dz]]. unfold zero_vector. cbn [Direction X Y Z].
  intros (Hx & Hy & Hz). unfold Sphere_Intersect. cbn [Direction Origin]. cbv zeta.
  set (oc := Subtract o (Sphere_Center s)).
  set (c := Dot oc oc - Sphere_Radius s * Sphere_Radius s).
  assert (Ha : 2 * Dot (mkVector dx dy dz) (mkVector dx dy dz) = 0
               /\ 4 * Dot (mkVector dx dy dz) (mkVector dx dy dz) = 0).
  { destruct Hx as [-> | ->], Hy as [-> | ->], Hz as [-> | ->]; split; reflexivity. }
  destruct Ha as [-> ->].
  set (b := 2 * Dot oc (mkVector dx dy dz)).
  assert (Hb : zero_or_nan b).
  { apply zn_scale. unfold Dot. cbn [X Y Z].
    destruct Hx as [-> | ->], Hy as [-> | ->], Hz as [-> | ->];
      repeat apply zn_add; first [apply mul_zero | apply mul_neg_zero]. }
  assert (Hdisc : zero_or_nan (b * b - 0 * c)).
  { apply zn_sub; [apply zn_mul; exact Hb | apply zero_mul]. }
  rewrite (zn_not_below_zero _ Hdisc).
  assert (Ht : (- b - PrimFloat.sqrt (b * b - 0 * c)) / 0 = nan).
  { apply zn_div_zero, zn_sub; [apply zn_opp; exact Hb | apply zn_sqrt; exact Hdisc]. }
  rewrite Ht. eexists. split; [reflexivity|]. cbn [T Position Normal].
  split; [reflexivity|].
  assert (Hpos : At (mkRay o (mkVector dx dy dz)) nan = mkVector nan nan nan).
  { unfold At, Add, Scale. cbn [Origin Direction X Y Z].
    rewrite !nan_mul_r, !nan_add_r. reflexivity. }
  rewrite Hpos. split; [reflexivity|].
  unfold Normalize, Length, Subtract. cbn [X Y Z]. rewrite !nan_sub_l. reflexivity.
Qed.

Lemma Sphere_Intersect_zero_direction_witness :
  exists h, Sphere_Intersect Examples.sphere_behind Examples.ray_nowhere = Some h
    /\ T h = nan
    /\ Position h = mkVector nan nan nan
    /\ Normal h = mkVector nan nan nan.
Proof.
  apply (Sphere_Intersect_zero_direction Examples.sphere_behind Examples.ray_nowhere).
  unfold zero_vector. simpl. auto.
Defined.

(** Every Hit of [Triangle.Intersect] has barycentric coordinates with
    [u] not below 0 and not above 1, [v] not below 0 and [u + v] not above 1;
    its [t] is positive, it lies on the ray at [t], and its normal is the
    normalized cross product of the two edges, the same for every ray. *)
Theorem Triangle_Intersect_barycentric (t : Triangle) (ray : Ray) (h : Hit) :
  Triangle_Intersect t ray = Some h ->
  (Triangle_u t ray <? 0) = false /\ (1 <? Triangle_u t ray) = false
  /\ (Triangle_v t ray <? 0) = false
  /\ (1 <? Triangle_u t ray + Triangle_v t ray) = false
  /\ (0 <? T h) = true
  /\ Position h = At ray (T h)
  /\ Normal h = Normalize (Cross (Subtract (V1 t) (V0 t)) (Subtract (V2 t) (V0 t))).
Proof.
  unfold Triangle_Intersect.
  repeat match goal with
         | |- context [if ?c then _ else _] => destruct c eqn:?
         end; try discriminate.
  intros [= <-]. cbn [T Position Normal].
  repeat match goal with
         | H : (_ || _) = false |- _ => apply orb_false_elim in H; destruct H
         end.
  unfold Triangle_u, Triangle_v, Triangle_det.
  repeat split; try assumption; try reflexivity.
  match goal with
  | H : (0.0001 <? _) = true |- _ =>
      apply ltb_trans with (y := 0.0001); [reflexivity | exact H]
  end.
Qed.

Lemma Triangle_Intersect_barycentric_witness :
  (Triangle_u Examples.facet Examples.ray_at_box <? 0) = false
  /\ (1 <? Triangle_u Examples.facet Examples.ray_at_box) = false
  /\ (Triangle_v Examples.facet Examples.ray_at_box <? 0) = false
  /\ (1 <? Triangle_u Examples.facet Examples.ray_at_box
           + Triangle_v Examples.facet Examples.ray_at_box) = false
  /\ (0 <? 5) = true
  /\ mkVector 0.25 0.25 5 = At Examples.ray_at_box 5
  /\ mkVector 0 0 1
     = Normalize (Cross (Subtract (V1 Examples.facet) (V0 Examples.facet))
                        (Subtract (V2 Examples.facet) (V0 Examples.facet))).
Proof.
  apply (Triangle_Intersect_barycentric Examples.facet Examples.ray_at_box
           (mkHit (mkVector 0.25 0.25 5) (mkVector 0 0 1) 5 (ObjTriangle Examples.facet))).
  vm_compute. reflexivity.
Defined.

(** The normal of every Hit of [Cylinder.Intersect] is horizontal: its y
    component is a zero (or NaN), the cylinder having no caps. *)
Theorem Cylinder_Intersect_normal_horizontal (c : Cylinder) (ray : Ray) (h : Hit) :
  Cylinder_Intersect c ray = Some h -> zero_or_nan (Y (Normal h)).
Proof.
  unfold Cylinder_Intersect. destruct (_ <? 0); [discriminate|].
  intros [= <-]. cbn [Normal Normalize Y set_Y]. apply zero_div.
Qed.

Lemma Cylinder_Intersect_normal_horizontal_witness : zero_or_nan 0.
Proof.
  apply (Cylinder_Intersect_normal_horizontal Examples.pillar Examples.ray_across
           (mkHit (mkVector 1 0 0) (mkVector 1 0 0) 4 (ObjCylinder Examples.pillar))).
  vm_compute. reflexivity.
Defined.

(** When the slab test of [Cube.Intersect] lets a ray through, the exit
    parameter [tmax] is not below the entry parameter [tmin], also when a
    division by a zero direction component gave an infinity or NaN. *)
Theorem Cube_slabs_ordered (cube : Cube) (ray : Ray) (tmin tmax : float) :
  Cube_slabs cube ray = Some (tmin, tmax) -> (tmax <? tmin) = false.
Proof.
  unfold Cube_slabs, swap_if_gt.
  repeat match goal with
         | |- context [if ?c then _ else _] => destruct c eqn:?
         end; try discriminate; intros [= <- <-];
    repeat match goal with
           | H : (_ || _) = false |- _ => apply orb_false_elim in H; destruct H
           end;
    try assumption; try apply ltb_irrefl; eauto using ltb_asym.
Qed.

Lemma Cube_slabs_ordered_witness : (6 <? 4) = false.
Proof.
  apply (Cube_slabs_ordered Examples.box Examples.ray_into_box 4 6).
  vm_compute. reflexivity.
Defined.

(* ================================================================= *)
(** ** package utility *)

(** For bounds in order, [Clamp] returns a value that is neither below
    [min] nor above [max], leaves a value within the bounds as it is, and
    clamping twice is clamping once. *)
Theorem Clamp_bounds (value lo hi : float) :
  (hi <? lo) = false ->
  (Clamp value lo hi <? lo) = false /\ (hi <? Clamp value lo hi) = false
  /\ Clamp (Clamp value lo hi) lo hi = Clamp value lo hi
  /\ ((value <? lo) = false -> (hi <? value) = false -> Clamp value lo hi = value).
Proof.
  intros Hord. unfold Clamp.
  destruct (value <? lo) eqn:Hlo.
  - rewrite ltb_irrefl, Hord. repeat split; auto using ltb_irrefl. discriminate.
  - destruct (hi <? value) eqn:Hhi.
    + rewrite ltb_irrefl. destruct (hi <? lo) eqn:E; [discriminate|].
      repeat split; auto. discriminate.
    + rewrite Hlo, Hhi. repeat split; auto.
Qed.

Lemma Clamp_bounds_witness :
  (Clamp 2 0 1 <? 0) = false /\ (1 <? Clamp 2 0 1) = false
  /\ Clamp (Clamp 2 0 1) 0 1 = Clamp 2 0 1
  /\ ((2 <? 0) = false -> (1 <? 2) = false -> Clamp 2 0 1 = 2).
Proof. apply (Clamp_bounds 2 0 1). reflexivity. Defined.

Lemma channel_saturates (x : float) :
  ((1 <? x) = true -> uint8 (255.999 * Clamp x 0 1) = 255%Z)
  /\ ((x <? 0) = true -> uint8 (255.999 * Clamp x 0 1) = 0%Z).
Proof.
  unfold Clamp. split; intros H.
  - destruct (x <? 0) eqn:E.
    + assert (C : (1 <? 0) = true) by exact (ltb_trans _ _ _ H E). discriminate C.
    + rewrite H. vm_compute. reflexivity.
  - rewrite H. vm_compute. reflexivity.
Qed.

(** [ConvertColorToUint8] saturates: a channel above 1 becomes 255, a
    channel below 0 becomes 0, however far out of range it is, and alpha is
    always 255. *)
Theorem ConvertColorToUint8_saturates (color : Color) :
  RGBA_A (ConvertColorToUint8 color) = 255%Z
  /\ ((1 <? R color) = true -> RGBA_R (ConvertColorToUint8 color) = 255%Z)
  /\ ((R color <? 0) = true -> RGBA_R (ConvertColorToUint8 color) = 0%Z)
  /\ ((1 <? G color) = true -> RGBA_G (ConvertColorToUint8 color) = 255%Z)
  /\ ((G color <? 0) = true -> RGBA_G (ConvertColorToUint8 color) = 0%Z)
  /\ ((1 <? B color) = true -> RGBA_B (ConvertColorToUint8 color) = 255%Z)
  /\ ((B color <? 0) = true -> RGBA_B (ConvertColorToUint8 color) = 0%Z).
Proof.
  unfold ConvertColorToUint8. cbn [RGBA_R RGBA_G RGBA_B RGBA_A].
  split; [reflexivity|].
  repeat split; apply channel_saturates.
Qed.

Lemma ConvertColorToUint8_saturates_witness :
  RGBA_R (ConvertColorToUint8 (mkColor 7 (-3) 0.5)) = 255%Z
  /\ RGBA_G (ConvertColorToUint8 (mkColor 7 (-3) 0.5)) = 0%Z.
Proof.
  destruct (ConvertColorToUint8_saturates (mkColor 7 (-3) 0.5))
    as (_ & HR & _ & _ & HG & _).
  split; [apply HR | apply HG]; reflexivity.
Defined.

(* ================================================================= *)
(** ** package material *)

(** [min] and [max] return one of their arguments; [min] is not above
    and [max] not below either argument.  When the second argument is NaN
    they return it, so a NaN color component or a NaN dot product passes
    through the clamps of [ComputeColor]. *)
Theorem min_max_select (a b : float) :
  (min a b = a \/ min a b = b)
  /\ (a <? min a b) = false /\ (b <? min a b) = false
  /\ (max a b = a \/ max a b = b)
  /\ (max a b <? a) = false /\ (max a b <? b) = false
  /\ min a nan = nan /\ max a nan = nan.
Proof.
  unfold min, max. rewrite !ltb_nan_r, !ltb_nan_l.
  destruct (a <? b) eqn:Hab; destruct (b <? a) eqn:Hba;
    try (rewrite (ltb_asym _ _ Hab) in Hba; discriminate);
    repeat split; auto using ltb_irrefl.
Qed.

Section ShadingLocal.

Variable pow : float -> float -> float.

Lemma lightContribution_local (m : Material) (hit hit' : Hit) (ray ray' : Ray)
      (light : Light) :
  Position hit = Position hit' -> Normal hit = Normal hit' ->
  Direction ray = Direction ray' ->
  lightContribution pow m hit ray light = lightContribution pow m hit' ray' light.
Proof. unfold lightContribution. intros -> -> ->. reflexivity. Qed.

(** [ComputeColor] looks at the material, the lights, the position and the
    normal of the hit and the direction of the ray, and at nothing else: the
    shapes of the scene do not enter (a light contributes whether or not a
    shape stands in its way), nor do the hit's [t] and shape or the origin of
    the ray. *)
Theorem ComputeColor_local (m : Material) (hit hit' : Hit) (s s' : Scene) (ray ray' : Ray) :
  Lights s = Lights s' ->
  Position hit = Position hit' -> Normal hit = Normal hit' ->
  Direction ray = Direction ray' ->
  ComputeColor pow m hit s ray = ComputeColor pow m hit' s' ray'.
Proof.
  intros HL HP HN HD. unfold ComputeColor. rewrite HL.
  assert (E : forall lights base,
             fold_left (fun color light =>
                          Color_Add color (lightContribution pow m hit ray light))
                       lights base
             = fold_left (fun color light =>
                            Color_Add color (lightContribution pow m hit' ray' light))
                         lights base).
  { induction lights as [|l ls IH]; intros base; simpl; [reflexivity|].
    rewrite (lightContribution_local m hit hit' ray ray' l HP HN HD). apply IH. }
  rewrite E. reflexivity.
Qed.

End ShadingLocal.

Lemma ComputeColor_local_witness :
  ComputeColor Examples.pow0 Examples.red
    (mkHit (mkVector 0.25 0.25 4.5) (mkVector 0 0 (-1)) 4.5 (ObjCube Examples.small_box))
    Examples.scene_box Examples.ray_at_box
  = ComputeColor Examples.pow0 Examples.red
      (mkHit (mkVector 0.25 0.25 4.5) (mkVector 0 0 (-1)) 4.5 (ObjCube Examples.small_box))
      (AddObject Examples.scene_box (ObjPlane Examples.wall)) Examples.ray_at_box.
Proof.
  apply (ComputeColor_local Examples.pow0); reflexivity.
Defined.

(* ================================================================= *)
(** ** package scene *)

(** [AddObject] puts the shape last, and the closest hit of a ray in the
    new scene is the closest hit in the old scene unless the new shape
    reports a hit with a strictly smaller [t] (a [t] below +Inf when the old
    scene gave no hit), which then replaces it. *)
Theorem AddObject_closest_hit (loopvar : LoopVar) (s : Scene) (o : Object) (ray : Ray) :
  Objects (AddObject s o) = Objects s ++ [o]
  /\ fst (FindClosestIntersection loopvar (AddObject s o) ray)
     = match Intersect o ray with
       | Some h' =>
           if T h' <? closestT (fst (FindClosestIntersection loopvar s ray))
           then Some h'
           else fst (FindClosestIntersection loopvar s ray)
       | None => fst (FindClosestIntersection loopvar s ray)
       end.
Proof.
  split; [reflexivity|].
  unfold FindClosestIntersection, AddObject. cbn [Objects fst].
  rewrite fold_left_app. cbn [fold_left].
  pose proof (FindClosestIntersection_inv s ray) as H.
  unfold closest_inv in H. unfold closest_step at 1.
  destruct (fold_left (closest_step ray) (Objects s) (mkClosest None None infinity))
    as [[h|] [ob|] d]; cbn [closestHit closestObject closestDistance closestT] in *;
    try contradiction; destruct H as [-> _];
    destruct (Intersect o ray) as [h'|]; try reflexivity;
    destruct (T h' <? _); reflexivity.
Qed.

Lemma first_inv_step (ray : Ray) (seen : list Object) (st : Closest) (o : Object) :
  closest_inv ray seen st -> first_inv ray seen st ->
  first_inv ray (seen ++ [o]) (closest_step ray st o).
Proof.
  unfold closest_inv, first_inv, closest_step.
  destruct st as [[h|] [ob|] d]; cbn [closestHit closestObject closestDistance];
    try contradiction.
  - intros (Hd & Hin & Hhit & Hfin & Hmin) (l1 & l2 & Hseen & Hfirst). subst d.
    destruct (Intersect o ray) as [h2|] eqn:Ho.
    + destruct (T h2 <? T h) eqn:Hlt; cbn [closestHit closestObject closestDistance].
      * exists seen, []. split; [reflexivity|].
        intros o' h' Hin' Hhit'.
        apply (ltb_below_not_below _ _ _ Hlt). apply (Hmin o' h' Hin' Hhit').
      * exists l1, (l2 ++ [o]). split; [|exact Hfirst].
        rewrite Hseen, <- app_assoc. reflexivity.
    + exists l1, (l2 ++ [o]). split; [|exact Hfirst].
      rewrite Hseen, <- app_assoc. reflexivity.
  - intros (Hd & Hmin) _. subst d.
    destruct (Intersect o ray) as [h2|] eqn:Ho; [|exact I].
    destruct (T h2 <? infinity) eqn:Hlt; cbn [closestHit closestObject closestDistance];
      [|exact I].
    exists seen, []. split; [reflexivity|].
    intros o' h' Hin' Hhit'.
    apply (ltb_below_not_below _ _ _ Hlt). apply (Hmin o' h' Hin' Hhit').
Qed.

Lemma first_inv_loop (ray : Ray) (rest : list Object) :
  forall (seen : list Object) (st : Closest),
    closest_inv ray seen st -> first_inv ray seen st ->
    first_inv ray (seen ++ rest) (fold_left (closest_step ray) rest st).
Proof.
  induction rest as [|o rest IH]; intros seen st Hinv Hfirst; simpl.
  - rewrite app_nil_r. exact Hfirst.
  - replace (seen ++ o :: rest) with ((seen ++ [o]) ++ rest)
      by (rewrite <- app_assoc; reflexivity).
    apply IH; [apply closest_inv_step | apply first_inv_step]; assumption.
Qed.

(** Ties go to the first shape: when [FindClosestIntersection] returns the
    hit of a shape (loop variables per iteration), every shape before it in
    the collection that reports a hit reports a strictly larger [t] (or a NaN
    [t]), and no shape after it reports a smaller [t]. *)
Theorem FindClosestIntersection_first_wins (s : Scene) (ray : Ray) (h : Hit) (o : Object) :
  FindClosestIntersection PerIteration s ray = (Some h, Some o) ->
  exists l1 l2,
    Objects s = l1 ++ o :: l2
    /\ Intersect o ray = Some h
    /\ (forall o' h', In o' l1 -> Intersect o' ray = Some h' ->
                      T h' = nan \/ (T h <? T h') = true)
    /\ (forall o' h', In o' l2 -> Intersect o' ray = Some h' -> (T h' <? T h) = false).
Proof.
  pose proof (FindClosestIntersection_inv s ray) as Hinv.
  pose proof (first_inv_loop ray (Objects s) [] (mkClosest None None infinity)) as Hfirst.
  cbn [app] in Hfirst.
  assert (H0 : closest_inv ray [] (mkClosest None None infinity)).
  { unfold closest_inv. simpl. split; [reflexivity | contradiction]. }
  specialize (Hfirst H0 I).
  unfold FindClosestIntersection, closest_inv, first_inv in *.
  destruct (fold_left (closest_step ray) (Objects s) (mkClosest None None infinity))
    as [[h0|] [o0|] d]; cbn [closestHit closestObject closestDistance option_map deref] in *;
    try contradiction; try discriminate.
  intros [= <- <-].
  destruct Hinv as (_ & _ & Hhit & _ & Hmin).
  destruct Hfirst as (l1 & l2 & Hobjs & Hbefore).
  exists l1, l2. split; [exact Hobjs|]. split; [exact Hhit|]. split; [exact Hbefore|].
  intros o' h' Hin. apply Hmin. rewrite Hobjs. apply in_or_app. right. right. exact Hin.
Qed.

(** The red box and the blue box are hit at the same [t]; the red one,
    which comes first, is returned. *)
Lemma FindClosestIntersection_first_wins_witness :
  exists l1 l2,
    Objects Examples.scene_two_boxes = l1 ++ ObjCube Examples.small_box :: l2
    /\ (forall o' h', In o' l1 -> Intersect o' Examples.ray_at_box = Some h' ->
                      T h' = nan \/ (4.5 <? T h') = true)
    /\ (forall o' h', In o' l2 -> Intersect o' Examples.ray_at_box = Some h' ->
                      (T h' <? 4.5) = false).
Proof.
  destruct (FindClosestIntersection_first_wins Examples.scene_two_boxes Examples.ray_at_box
              (mkHit (mkVector 0.25 0.25 4.5) (mkVector 0 0 (-1)) 4.5
                     (ObjCube Examples.small_box))
              (ObjCube Examples.small_box))
    as (l1 & l2 & Hobjs & _ & Hbefore & Hafter).
  - vm_compute. reflexivity.
  - exists l1, l2. split; [exact Hobjs|]. split; [exact Hbefore | exact Hafter].
Defined.

(** *** The loop variable in memory *)

Lemma memory_inv_step (loopvar : LoopVar) (ray : Ray) (seen : list Object) (c : Closest)
      (st : Loop) (o : Object) :
  memory_inv loopvar seen c st ->
  memory_inv loopvar (seen ++ [o]) (closest_step ray c o) (loop_step loopvar ray st o).
Proof.
  intros (Hh & Hd & Hv). unfold loop_step, closest_step.
  destruct loopvar; cbn [declare].
  - destruct Hv as [Hv Hp]. rewrite Hv.
    rewrite nth_error_app2 by lia. rewrite Nat.sub_diag. cbn [nth_error].
    destruct (Intersect o ray) as [hit|].
    + rewrite Hd. destruct (T hit <? closestDistance c).
      * repeat split; cbn. rewrite nth_error_app2 by lia. rewrite Nat.sub_diag. reflexivity.
      * repeat split; cbn; try assumption.
        destruct (loop_closestObject st) as [a|], (closestObject c) as [o'|];
          try contradiction; auto.
        rewrite nth_error_app1; [exact Hp|]. apply nth_error_Some. rewrite Hp. discriminate.
    + repeat split; cbn; try assumption.
      destruct (loop_closestObject st) as [a|], (closestObject c) as [o'|];
        try contradiction; auto.
      rewrite nth_error_app1; [exact Hp|]. apply nth_error_Some. rewrite Hp. discriminate.
  - destruct Hv as [Hv Hp]. cbn [nth_error].
    assert (Hlast : [o] = match seen ++ [o] with [] => [] | o0 :: l => [last l o0] end).
    { destruct seen as [|a l]; [reflexivity|]. cbn [app]. rewrite last_last. reflexivity. }
    assert (Hne : seen ++ [o] <> []) by (destruct seen; discriminate).
    destruct (Intersect o ray) as [hit|].
    + rewrite Hd. destruct (T hit <? closestDistance c).
      * repeat split;
          cbn [variables loop_closestHit loop_closestObject loop_closestDistance
               closestHit closestObject closestDistance]; auto.
      * repeat split;
          cbn [variables loop_closestHit loop_closestObject loop_closestDistance]; auto.
        destruct (loop_closestObject st) as [a|], (closestObject c) as [o'|];
          try contradiction; auto.
        destruct Hp as [-> _]. split; auto.
    + repeat split;
        cbn [variables loop_closestHit loop_closestObject loop_closestDistance]; auto.
      destruct (loop_closestObject st) as [a|], (closestObject c) as [o'|];
        try contradiction; auto.
      destruct Hp as [-> _]. split; auto.
Qed.

Lemma memory_inv_loop (loopvar : LoopVar) (ray : Ray) (rest : list Object) :
  forall seen c st,
    memory_inv loopvar seen c st ->
    memory_inv loopvar (seen ++ rest)
               (fold_left (closest_step ray) rest c)
               (fold_left (loop_step loopvar ray) rest st).
Proof.
  induction rest as [|o rest IH]; intros seen c st H; simpl.
  - rewrite app_nil_r. exact H.
  - replace (seen ++ o :: rest) with ((seen ++ [o]) ++ rest)
      by (rewrite <- app_assoc; reflexivity).
    apply IH, memory_inv_step, H.
Qed.

Lemma last_cons_default {A : Type} (l : list A) :
  forall b o : A, last (b :: l) o = last l b.
Proof.
  induction l as [|b' l IH]; intros b o; [reflexivity|].
  change (last (b :: b' :: l) o) with (last (b' :: l) o).
  rewrite (IH b' o), (IH b' b). reflexivity.
Qed.

(** The loop on values, with [deref] for the pointer, computes what the
    loop with its variable in memory computes. *)
Lemma FindClosestIntersection_memory_deref (loopvar : LoopVar) (s : Scene) (ray : Ray) :
  FindClosestIntersection_memory loopvar s ray = FindClosestIntersection loopvar s ray.
Proof.
  unfold FindClosestIntersection_memory, FindClosestIntersection.
  pose proof (memory_inv_loop loopvar ray (Objects s) [] (mkClosest None None infinity)
                (mkLoop [] None None infinity)) as H.
  cbn [app] in H.
  destruct H as (Hh & Hd & Hv).
  { repeat split. destruct loopvar; split; reflexivity. }
  rewrite Hh. f_equal.
  set (c := fold_left (closest_step ray) (Objects s) (mkClosest None None infinity)) in *.
  set (st := fold_left (loop_step loopvar ray) (Objects s) (mkLoop [] None None infinity))
    in *.
  destruct loopvar; destruct Hv as [Hv Hp]; rewrite Hv;
    destruct (loop_closestObject st) as [a|], (closestObject c) as [o|];
    try contradiction; try reflexivity; cbn [option_map deref].
  - exact Hp.
  - destruct Hp as [-> Hne]. destruct (Objects s) as [|b l]; [contradiction|].
    cbn [nth_error]. f_equal. symmetry. apply last_cons_default.
Qed.

(** What the caller of [FindClosestIntersection] reads through the pointer
    that comes with a hit, with the loop variable in memory.  The hit is the
    hit of a shape of the collection.  When every iteration has a variable
    of its own the pointer leads to that shape; when one variable serves the
    loop it leads to the last shape of the collection, whichever shape
    produced the hit.  The loop on values computes the same results. *)
Theorem FindClosestIntersection_memory_reference (loopvar : LoopVar) (s : Scene) (ray : Ray) :
  FindClosestIntersection_memory loopvar s ray = FindClosestIntersection loopvar s ray
  /\ forall h o,
       FindClosestIntersection_memory loopvar s ray = (Some h, Some o) ->
       (exists producer, In producer (Objects s) /\ Intersect producer ray = Some h)
       /\ match loopvar with
          | PerIteration => In o (Objects s) /\ Intersect o ray = Some h
          | PerLoop => exists l, Objects s = l ++ [o]
          end.
Proof.
  split; [apply FindClosestIntersection_memory_deref|].
  intros h o. rewrite FindClosestIntersection_memory_deref.
  unfold FindClosestIntersection.
  pose proof (FindClosestIntersection_inv s ray) as Hinv. unfold closest_inv in Hinv.
  destruct (fold_left (closest_step ray) (Objects s) (mkClosest None None infinity))
    as [[h'|] [o'|] d]; cbn [closestHit closestObject closestDistance option_map] in *;
    try contradiction; try discriminate.
  destruct Hinv as (_ & Hin & Hhit & _).
  intros [= <- <-]. split; [exists o'; split; assumption|].
  destruct loopvar; cbn [deref].
  - split; assumption.
  - destruct (exists_last (l := Objects s)) as (l & a & E).
    { intros E. rewrite E in Hin. contradiction. }
    exists l. rewrite E, last_last. reflexivity.
Qed.

Lemma FindClosestIntersection_memory_reference_witness :
  FindClosestIntersection_memory PerLoop Examples.scene_box_wall Examples.ray_at_box
  = (Some (mkHit (mkVector 0.25 0.25 4.5) (mkVector 0 0 (-1)) 4.5
             (ObjCube Examples.small_box)),
     Some (ObjPlane Examples.wall))
  /\ exists l, Objects Examples.scene_box_wall = l ++ [ObjPlane Examples.wall].
Proof.
  assert (E : FindClosestIntersection_memory PerLoop Examples.scene_box_wall
                Examples.ray_at_box
              = (Some (mkHit (mkVector 0.25 0.25 4.5) (mkVector 0 0 (-1)) 4.5
                         (ObjCube Examples.small_box)),
                 Some (ObjPlane Examples.wall))) by (vm_compute; reflexivity).
  split; [exact E|].
  exact (proj2 (proj2 (FindClosestIntersection_memory_reference PerLoop
                         Examples.scene_box_wall Examples.ray_at_box) _ _ E)).
Defined.

(* ================================================================= *)
(** ** package raytracer *)

Lemma in_range (n x : int) : (0 <= x < n)%Z -> In x (range n).
Proof.
  intros H. unfold range. apply in_map_iff. exists (Z.to_nat x).
  split; [lia|]. apply in_seq. lia.
Qed.

Lemma inRaster_In (r : Raytracer) (p : Pixel) : inRaster r p = true -> In p (raster r).
Proof.
  destruct p as [x y]. unfold inRaster, raster. cbn [fst snd]. intros H.
  apply andb_prop in H. destruct H as [H Hy2].
  apply andb_prop in H. destruct H as [H Hy1].
  apply andb_prop in H. destruct H as [Hx1 Hx2].
  apply Z.leb_le in Hx1, Hy1. apply Z.ltb_lt in Hx2, Hy2.
  apply in_flat_map. exists y. split; [apply in_range; lia|].
  apply in_map_iff. exists x. split; [reflexivity | apply in_range; lia].
Qed.

(** What a pixel gets when all its samples are black, whatever the factor
    [1 / Samples]. *)
Lemma black_pixel (x : float) :
  Color_ToRGBA (Color_Scale (mkColor 0 0 0) x) = mkRGBA 0 0 0 255.
Proof.
  unfold Color_Scale. cbn [R G B].
  destruct (zero_mul x) as [-> | [-> | ->]]; vm_compute; reflexivity.
Qed.

Section TracerMore.

Variable loopvar : LoopVar.
Variable pow : float -> float -> float.
Variable spawn_origin : Ray -> Vector -> Vector.
Variable relative_index : float -> bool -> float.
Variable inside0 : bool.

(** The shape reference that comes with a hit designates a shape of the
    scene, under both readings of the loop variable. *)
Lemma FindClosestIntersection_object_in (s : Scene) (ray : Ray) (h : Hit) (o : Object) :
  FindClosestIntersection loopvar s ray = (Some h, Some o) -> In o (Objects s).
Proof.
  pose proof (FindClosestIntersection_inv s ray) as H.
  unfold FindClosestIntersection, closest_inv in *.
  destruct (fold_left (closest_step ray) (Objects s) (mkClosest None None infinity))
    as [[h0|] [o0|] d]; cbn [closestHit closestObject closestDistance option_map] in *;
    try contradiction; try discriminate.
  destruct H as (_ & Hin & _). intros [= _ <-].
  unfold deref. destruct loopvar; [exact Hin|].
  destruct (Objects s) as [|a l]; [contradiction|].
  clear. revert a. induction l as [|b l IH]; intros a; [left; reflexivity|].
  right. change (In (last (b :: l) o0) (b :: l)). apply IH.
Qed.

(** In a scene whose materials are all matte, [traceRay] at any depth of 1
    or more is the local color of the closest hit, or black without a hit:
    a larger depth and the inside flag change nothing. *)
Theorem traceRay_matte (scene : Scene) (ray : Ray) (depth : int) (inside : bool) :
  (forall o, In o (Objects scene) -> matte (Object_Material o)) ->
  (1 <= depth)%Z ->
  traceRay loopvar pow spawn_origin relative_index scene ray depth inside
  = match FindClosestIntersection loopvar scene ray with
    | (Some hit, Some object) => ComputeColor pow (Object_Material object) hit scene ray
    | _ => black
    end.
Proof.
  intros Hmatte Hd.
  rewrite traceRay_unfold by lia.
  destruct (FindClosestIntersection loopvar scene ray) as [[hit|] [object|]] eqn:E;
    try reflexivity.
  destruct (Hmatte object (FindClosestIntersection_object_in _ _ _ _ E)) as [Hr Ht].
  cbv zeta. unfold colorAfterReflection. rewrite Ht, Hr. reflexivity.
Qed.

(** The inside flag reaches nothing but [Ray.Refract]: in a scene none of
    whose materials has transparency > 0, [traceRay] returns the same color
    for both values of the flag, at every depth and for every ray, however
    many reflections it follows. *)
Theorem traceRay_inside_without_transparency (scene : Scene) (depth : int) (ray : Ray)
        (inside inside' : bool) :
  (forall o, In o (Objects scene) -> (0 <? Transparency (Object_Material o)) = false) ->
  traceRay loopvar pow spawn_origin relative_index scene ray depth inside
  = traceRay loopvar pow spawn_origin relative_index scene ray depth inside'.
Proof.
  intros Hopaque.
  remember (Z.to_nat depth) as k eqn:Hk. revert depth Hk ray.
  induction k as [|k IH]; intros depth Hk ray.
  - rewrite !traceRay_exhausted by lia. reflexivity.
  - rewrite !(traceRay_unfold loopvar pow spawn_origin relative_index scene ray depth) by lia.
    destruct (FindClosestIntersection loopvar scene ray) as [[hit|] [object|]] eqn:E;
      try reflexivity.
    cbv zeta.
    rewrite (Hopaque object (FindClosestIntersection_object_in _ _ _ _ E)).
    unfold colorAfterReflection.
    destruct (0 <? Reflectivity (Object_Material object)); [|reflexivity].
    rewrite (IH (depth - 1)%Z ltac:(lia)). reflexivity.
Qed.

Lemma traceRay_no_shapes (scene : Scene) (ray : Ray) (depth : int) (inside : bool) :
  Objects scene = [] ->
  traceRay loopvar pow spawn_origin relative_index scene ray depth inside = black.
Proof.
  intros Hempty. destruct (Z.le_gt_cases depth 0) as [Hd | Hd].
  - apply traceRay_exhausted. exact Hd.
  - rewrite traceRay_unfold by lia.
    rewrite FindClosestIntersection_all_miss; [reflexivity|].
    rewrite Hempty. intros o [].
Qed.

Lemma stepPixel_black (r : Raytracer) (p : Pixel) (t t' : Task) (rnd : float) :
  Objects (RT_Scene r) = [] ->
  (forall u v, GetRay (Scene_Camera (RT_Scene r)) u v <> None) ->
  black_task t ->
  stepPixel loopvar pow spawn_origin relative_index inside0 r p t rnd = Some t' ->
  black_task t'.
Proof.
  intros Hempty Hcam Ht. destruct p as [x y]. unfold stepPixel.
  destruct t as [s color [rnd_u|] | rgba | ]; cbn [black_task] in Ht; try discriminate.
  - subst color.
    destruct (GetRay _ _ _) as [ray|] eqn:Hray; [|exfalso; exact (Hcam _ _ Hray)].
    rewrite traceRay_no_shapes by exact Hempty.
    intros [= <-]. change (Color_Add (mkColor 0 0 0) black) with (mkColor 0 0 0).
    destruct (_ <? _)%Z; cbn [black_task finishPixel]; [reflexivity | apply black_pixel].
  - intros [= <-]. exact Ht.
Qed.

Lemma run_black (r : Raytracer) (source : nat -> float) (sched : list Pixel) :
  Objects (RT_Scene r) = [] ->
  (forall u v, GetRay (Scene_Camera (RT_Scene r)) u v <> None) ->
  forall i ts ts',
    (forall p, black_task (ts p)) ->
    run loopvar pow spawn_origin relative_index inside0 r source sched i ts = Some ts' ->
    forall p, black_task (ts' p).
Proof.
  intros Hempty Hcam.
  induction sched as [|q sched IH]; intros i ts ts' Hts Hrun; simpl in Hrun.
  - injection Hrun as <-. exact Hts.
  - destruct (inRaster r q); [|discriminate].
    destruct (stepPixel loopvar pow spawn_origin relative_index inside0 r q (ts q) (source i))
      as [t|] eqn:Hstep; [|discriminate].
    apply (IH (S i) (setTask ts q t) ts'); [|exact Hrun].
    intros p. unfold setTask. destruct (Pixel_eqb p q); [|apply Hts].
    exact (stepPixel_black r q (ts q) t (source i) Hempty Hcam (Hts q) Hstep).
Qed.

(** A scene without shapes renders black: with a camera that never fails
    and at least one sample per pixel, every pixel of the image that [Render]
    returns is opaque black, whatever the depth, the random numbers and the
    schedule. *)
Theorem Render_no_shapes_black (r : Raytracer) (source : nat -> float)
        (sched : list Pixel) (img : Image) :
  Objects (RT_Scene r) = [] ->
  (0 < Samples r)%Z ->
  (forall u v, GetRay (Scene_Camera (RT_Scene r)) u v <> None) ->
  Render loopvar pow spawn_origin relative_index inside0 r source sched = Some img ->
  forall x y, inRaster r (x, y) = true -> img x y = mkRGBA 0 0 0 255.
Proof.
  intros Hempty Hsamples Hcam Hrender x y Hin. unfold Render in Hrender.
  destruct (comesBack r); [|discriminate].
  destruct (run loopvar pow spawn_origin relative_index inside0 r source sched 0 (fun _ =>
      startPixel r))
    as [ts|] eqn:Hrun; [|discriminate].
  destruct (forallb (fun p => ended (ts p)) (raster r)) eqn:Hall; [|discriminate].
  injection Hrender as <-. unfold imageOf. rewrite Hin.
  assert (Hblack : black_task (ts (x, y))).
  { apply (run_black r source sched Hempty Hcam 0 (fun _ => startPixel r) ts); [|exact Hrun].
    intros _. unfold startPixel.
    replace (0 <? Samples r)%Z with true by (symmetry; apply Z.ltb_lt; exact Hsamples).
    reflexivity. }
  rewrite forallb_forall in Hall. specialize (Hall (x, y) (inRaster_In r (x, y) Hin)).
  destruct (ts (x, y)); cbn in *; [discriminate | exact Hblack | contradiction].
Qed.

Lemma feed_samples (r : Raytracer) (p : Pixel) (samples : list (float * float)) :
  forall (rays : list Ray) (s : int) (color : Color),
    Forall2 (fun rnd ray => sampleRay r p rnd = Some ray) samples rays ->
    samples <> [] ->
    (s + Z.of_nat (length samples) = Samples r)%Z ->
    feed loopvar pow spawn_origin relative_index inside0 r p (Running s color None)
        (drawsOfSamples samples)
    = Some (finishPixel r (sumColors loopvar pow spawn_origin relative_index inside0 r rays color)).
Proof.
  induction samples as [|[ru rv] samples IH]; intros rays s color Hrays Hne Hlen;
    [congruence|].
  inversion Hrays as [|? ray ? rays' Hray Hrays']; subst.
  unfold sampleRay in Hray. cbn [fst snd] in Hray.
  cbn [drawsOfSamples flat_map app fst snd feed].
  destruct p as [x y]. cbn [fst snd] in Hray.
  cbn [stepPixel]. rewrite Hray.
  destruct samples as [|rnd samples].
  - inversion Hrays'; subst. cbn [length] in Hlen.
    replace (s + 1 <? Samples r)%Z with false by (symmetry; apply Z.ltb_ge; lia).
    reflexivity.
  - replace (s + 1 <? Samples r)%Z with true
      by (symmetry; apply Z.ltb_lt; cbn [length] in Hlen; lia).
    apply (IH rays'); [exact Hrays' | discriminate | cbn [length] in *; lia].
Qed.

(** Every pixel is the average of its samples: when the goroutine of a
    pixel of the image draws the random numbers of [Samples] samples and
    [GetRay] gives a ray for each, the pixel that [Render] returns is the
    8-bit conversion of the sum of the traced colors of these rays, taken in
    their order from black, times [1 / Samples]. *)
Theorem Render_pixel_average (r : Raytracer) (source : nat -> float)
        (sched : list Pixel) (img : Image) (x y : int)
        (samples : list (float * float)) (rays : list Ray) :
  Render loopvar pow spawn_origin relative_index inside0 r source sched = Some img ->
  inRaster r (x, y) = true ->
  drawsOf source (x, y) sched 0 = drawsOfSamples samples ->
  (0 < Samples r)%Z ->
  Z.of_nat (length samples) = Samples r ->
  Forall2 (fun rnd ray => sampleRay r (x, y) rnd = Some ray) samples rays ->
  img x y
  = Color_ToRGBA
      (Color_Scale (sumColors loopvar pow spawn_origin relative_index inside0 r rays (mkColor 0
          0 0))
                   (1 / float64 (Samples r))).
Proof.
  intros Hrender Hin Hdraws Hpos Hlen Hrays. unfold Render in Hrender.
  destruct (comesBack r); [|discriminate].
  destruct (run loopvar pow spawn_origin relative_index inside0 r source sched 0 (fun _ =>
      startPixel r))
    as [ts|] eqn:Hrun; [|discriminate].
  destruct (forallb _ _) in Hrender; [|discriminate].
  injection Hrender as <-. unfold imageOf. rewrite Hin.
  pose proof (run_feed _ _ _ _ _ _ _ _ _ _ _ Hrun (x, y)) as Hfeed.
  cbv beta in Hfeed. rewrite Hdraws in Hfeed. unfold startPixel in Hfeed.
  replace (0 <? Samples r)%Z with true in Hfeed by (symmetry; apply Z.ltb_lt; exact Hpos).
  rewrite (feed_samples r (x, y) samples rays 0 (mkColor 0 0 0) Hrays) in Hfeed.
  - injection Hfeed as <-. reflexivity.
  - intros ->. cbn in Hlen. lia.
  - lia.
Qed.

End TracerMore.

Lemma traceRay_matte_witness :
  traceRay PerIteration Examples.pow0 Examples.keep_origin Examples.relative_index
      Examples.scene_box_wall
           Examples.ray_at_box 5 true
  = ComputeColor Examples.pow0 Examples.red
      (mkHit (mkVector 0.25 0.25 4.5) (mkVector 0 0 (-1)) 4.5 (ObjCube Examples.small_box))
      Examples.scene_box_wall Examples.ray_at_box.
Proof.
  rewrite (traceRay_matte PerIteration Examples.pow0 Examples.keep_origin Examples.relative_index
             Examples.scene_box_wall Examples.ray_at_box 5 true).
  - vm_compute. reflexivity.
  - intros o [<- | [<- | []]]; split; reflexivity.
  - discriminate.
Defined.

Lemma traceRay_inside_without_transparency_witness :
  traceRay PerIteration Examples.pow0 Examples.keep_origin Examples.relative_index
           Examples.scene_mirror Examples.ray_slanted 3 false
  = traceRay PerIteration Examples.pow0 Examples.keep_origin Examples.relative_index
             Examples.scene_mirror Examples.ray_slanted 3 true.
Proof.
  apply (traceRay_inside_without_transparency PerIteration Examples.pow0
           Examples.keep_origin Examples.relative_index Examples.scene_mirror 3
           Examples.ray_slanted false true).
  intros o [<- | []]. reflexivity.
Defined.

Lemma camera_never_fails (u v : float) :
  GetRay (Scene_Camera (RT_Scene Examples.tracer_empty)) u v <> None.
Proof. discriminate. Qed.

Lemma Render_no_shapes_black_witness :
  option_map (fun img : Image => (img 0 0, img 1 1)%Z)
    (Render PerIteration Examples.pow0 Examples.keep_origin Examples.relative_index false
        Examples.tracer_empty
            Examples.source_step Examples.sched_a)
  = Some (mkRGBA 0 0 0 255, mkRGBA 0 0 0 255).
Proof.
  destruct (Render PerIteration Examples.pow0 Examples.keep_origin Examples.relative_index false
      Examples.tracer_empty
              Examples.source_step Examples.sched_a) as [img|] eqn:H;
    [|vm_compute in H; discriminate].
  simpl. f_equal. f_equal;
    apply (Render_no_shapes_black PerIteration Examples.pow0 Examples.keep_origin
        Examples.relative_index false
             Examples.tracer_empty Examples.source_step Examples.sched_a img
             eq_refl eq_refl camera_never_fails H); reflexivity.
Defined.

Lemma Render_pixel_average_witness :
  option_map (fun img : Image => img 0%Z 0%Z)
    (Render PerIteration Examples.pow0 Examples.keep_origin Examples.relative_index false
        Examples.tracer1
            Examples.source_step Examples.sched_a)
  = Some (Color_ToRGBA
            (Color_Scale
               (sumColors PerIteration Examples.pow0 Examples.keep_origin
                   Examples.relative_index false
                          Examples.tracer1 [Examples.ray_at_box] (mkColor 0 0 0))
               (1 / float64 (Samples Examples.tracer1)))).
Proof.
  destruct (Render PerIteration Examples.pow0 Examples.keep_origin Examples.relative_index false
      Examples.tracer1
              Examples.source_step Examples.sched_a) as [img|] eqn:H;
    [|vm_compute in H; discriminate].
  simpl option_map. f_equal.
  apply (Render_pixel_average PerIteration Examples.pow0 Examples.keep_origin
      Examples.relative_index false
           Examples.tracer1 Examples.source_step Examples.sched_a img 0 0
           [(0.25, 0.25)] [Examples.ray_at_box] H).
  - reflexivity.
  - reflexivity.
  - reflexivity.
  - reflexivity.
  - constructor; [vm_compute; reflexivity | constructor].
Defined.

(* ================================================================= *)
(** ** Differences of equal numbers *)

Lemma SFsub_diag a :
  match SFsub prec emax a a with
  | S754_zero false | S754_nan => True
  | _ => False
  end.
Proof.
  destruct a as [s|s| |s m e]; simpl; try (destruct s; exact I); try exact I.
  rewrite Z.sub_diag. exact I.
Qed.

Lemma float_sub_diag x : x - x = 0 \/ x - x = nan.
Proof.
  pose proof (SFsub_diag (Prim2SF x)) as H.
  pose proof (sub_spec x x) as E. unfold SF64sub in E.
  destruct (SFsub prec emax (Prim2SF x) (Prim2SF x)) as [[|]| | |]; try contradiction.
  - left. apply Prim2SF_inj. rewrite E. reflexivity.
  - right. apply Prim2SF_inj. rewrite E. reflexivity.
Qed.

(** [v.Subtract(v)] has no component other than +0 or NaN: the difference
    of a point with itself is the zero vector unless a component is infinite
    or not a number. *)
Theorem Subtract_self (v : Vector) : zero_or_nan_vector (Subtract v v).
Proof.
  unfold zero_or_nan_vector, Subtract. cbn [X Y Z].
  repeat split; apply float_sub_diag.
Qed.

(* ================================================================= *)
(** ** A light at the hit point *)

Section LightAtHit.

Variable pow : float -> float -> float.

(** The direction to a light at the hit position has length zero, and its
    normalization divides by it. *)
Lemma lightContribution_at_hit (m : Material) (hit : Hit) (ray : Ray) (light : Light) :
  Light_Position light = Position hit ->
  lightContribution pow m hit ray light = mkColor nan nan nan.
Proof.
  intros Hp. unfold lightContribution. rewrite Hp. cbv zeta.
  assert (Hn : Normalize (Subtract (Position hit) (Position hit)) = mkVector nan nan nan).
  { unfold Normalize, Length, Subtract. cbn [X Y Z].
    destruct (float_sub_diag (X (Position hit))) as [-> | ->],
             (float_sub_diag (Y (Position hit))) as [-> | ->],
             (float_sub_diag (Z (Position hit))) as [-> | ->]; reflexivity. }
  rewrite Hn.
  assert (Hdot : Dot (Normal hit) (mkVector nan nan nan) = nan).
  { unfold Dot. cbn [X Y Z]. rewrite !nan_mul_r. reflexivity. }
  rewrite Hdot. unfold max at 1. rewrite ltb_nan_l.
  unfold Color_Scale, Color_Add. cbn [R G B].
  rewrite !nan_mul_r, !nan_add_l, !nan_mul_l. reflexivity.
Qed.

Lemma fold_lights_nan (m : Material) (hit : Hit) (ray : Ray) (lights : list Light) :
  fold_left (fun color light => Color_Add color (lightContribution pow m hit ray light))
            lights (mkColor nan nan nan)
  = mkColor nan nan nan.
Proof.
  induction lights as [|l lights IH]; simpl; [reflexivity|].
  unfold Color_Add at 2. cbn [R G B]. rewrite !nan_add_l. exact IH.
Qed.

(** A light that sits exactly at the hit position spoils the whole color:
    [ComputeColor] normalizes the zero vector towards it without a guard,
    the NaN passes through [max(0, .)], through the sum over the other
    lights and through [min(1, .)], and every component of the color
    returned is NaN, whatever the material, the other lights and the ray. *)
Theorem ComputeColor_light_at_hit (m : Material) (hit : Hit) (s : Scene) (ray : Ray)
        (light : Light) :
  In light (Lights s) ->
  Light_Position light = Position hit ->
  ComputeColor pow m hit s ray = mkColor nan nan nan.
Proof.
  intros Hin Hp. unfold ComputeColor.
  assert (Hfold : forall base,
             fold_left (fun color l => Color_Add color (lightContribution pow m hit ray l))
                       (Lights s) base
             = mkColor nan nan nan).
  { induction (Lights s) as [|l lights IH]; [contradiction|].
    intros base. simpl. destruct Hin as [-> | Hin].
    - rewrite (lightContribution_at_hit m hit ray light Hp).
      unfold Color_Add at 2. cbn [R G B]. rewrite !nan_add_r. apply fold_lights_nan.
    - apply IH. exact Hin. }
  rewrite Hfold. cbn [R G B]. unfold min. rewrite ltb_nan_r. reflexivity.
Qed.

End LightAtHit.

Lemma ComputeColor_light_at_hit_witness :
  ComputeColor Examples.pow0 Examples.mirror_material Examples.hit_mirror
               Examples.scene_lamp Examples.ray_slanted
  = mkColor nan nan nan.
Proof.
  apply (ComputeColor_light_at_hit Examples.pow0 Examples.mirror_material
           Examples.hit_mirror Examples.scene_lamp Examples.ray_slanted Examples.lamp).
  - left. reflexivity.
  - reflexivity.
Defined.

(* ================================================================= *)
(** ** The goroutines of the renderer *)

Lemma length_range (n : int) : length (range n) = Z.to_nat n.
Proof. unfold range. rewrite length_map, length_seq. reflexivity. Qed.

Lemma length_raster (r : Raytracer) :
  length (raster r) = (Z.to_nat (Height r) * Z.to_nat (Width r))%nat.
Proof.
  unfold raster.
  rewrite (flat_map_constant_length (c := Z.to_nat (Width r))).
  - rewrite length_range. reflexivity.
  - intros y _. rewrite length_map. apply length_range.
Qed.

(** The sizes with which [Render] comes back: a positive width and height
    whose buffer an [int] can index, or no row at all and a count
    [pixels] of zero. *)
Lemma comesBack_sizes (r : Raytracer) :
  comesBack r = true
  <-> ((0 < Width r)%Z /\ (0 < Height r)%Z /\ (4 * Width r * Height r < 2 ^ 63)%Z)
      \/ ((Height r <= 0)%Z /\ (Width r * Height r = 0)%Z).
Proof.
  unfold comesBack, pixels. rewrite length_raster.
  rewrite !andb_true_iff, negb_true_iff, andb_false_iff.
  rewrite Z.ltb_lt, Z.leb_le, Z.ltb_ge, !Z.eqb_eq, Z.eqb_neq.
  split.
  - intros (((Hbuf & Hadd) & Hdiv) & Hwait).
    destruct (Z.lt_ge_cases 0 (Height r)) as [HH | HH].
    + left. destruct Hdiv as [Hdiv | Hdiv]; [lia|].
      assert (0 < Width r)%Z by nia. repeat split; try assumption.
      rewrite !Z.abs_eq in Hbuf by lia. exact Hbuf.
    + right. split; [exact HH|].
      replace (Z.to_nat (Height r)) with 0%nat in Hwait by lia. simpl in Hwait. lia.
  - intros [(HW & HH & Hbuf) | (HH & Hz)].
    + repeat split.
      * rewrite !Z.abs_eq by lia. exact Hbuf.
      * nia.
      * right. nia.
      * nia.
    + repeat split.
      * replace (4 * Z.abs (Width r) * Z.abs (Height r))%Z
          with (4 * Z.abs (Width r * Height r))%Z by (rewrite Z.abs_mul; ring).
        rewrite Hz. reflexivity.
      * lia.
      * left. exact HH.
      * replace (Z.to_nat (Height r)) with 0%nat by lia. simpl. lia.
Qed.

Lemma NoDup_range (n : int) : NoDup (range n).
Proof.
  unfold range. apply NoDup_map_NoDup_ForallPairs; [|apply seq_NoDup].
  intros a b _ _ H. lia.
Qed.

Lemma In_raster (r : Raytracer) (p : Pixel) : In p (raster r) -> inRaster r p = true.
Proof.
  unfold raster, inRaster, range. intros H.
  apply in_flat_map in H. destruct H as (y & Hy & H).
  apply in_map_iff in H. destruct H as (x & <- & Hx).
  apply in_map_iff in Hx, Hy. destruct Hx as (i & <- & Hi). destruct Hy as (j & <- & Hj).
  apply in_seq in Hi, Hj. cbn [fst snd].
  repeat (apply andb_true_intro; split);
    first [apply Z.leb_le | apply Z.ltb_lt]; lia.
Qed.

Lemma NoDup_rows (xs ys : list int) :
  NoDup xs -> NoDup ys ->
  NoDup (flat_map (fun y => map (fun x => (x, y)) xs) ys).
Proof.
  intros Hxs. induction 1 as [|y ys Hy Hys IH]; simpl; [constructor|].
  apply NoDup_app.
  - apply NoDup_map_NoDup_ForallPairs; [|exact Hxs].
    intros a b _ _ [= ->]. reflexivity.
  - exact IH.
  - intros [a b] Ha Hb.
    apply in_map_iff in Ha. destruct Ha as (x & [= <- <-] & _).
    apply in_flat_map in Hb. destruct Hb as (y' & Hy' & Hb).
    apply in_map_iff in Hb. destruct Hb as (x' & [= _ ->] & _). contradiction.
Qed.

(** [Render] starts one goroutine per pixel of the image and no two for
    the same pixel, so no two goroutines write the same buffer slot.  For a
    width and a height that are not negative their number is the count
    [Width * Height] given to [wg.Add]; for a negative width and height no
    goroutine is started while that count is positive (the renderer is for
    sizes that are not negative). *)
Theorem raster_goroutines (r : Raytracer) :
  NoDup (raster r)
  /\ (forall p, In p (raster r) <-> inRaster r p = true)
  /\ ((0 <= Width r)%Z -> (0 <= Height r)%Z ->
      Z.of_nat (length (raster r)) = pixels r)
  /\ ((Width r < 0)%Z -> (Height r < 0)%Z -> raster r = [] /\ (0 < pixels r)%Z).
Proof.
  split; [apply NoDup_rows; apply NoDup_range|].
  split; [intros p; split; [apply In_raster | apply inRaster_In]|].
  split.
  - intros HW HH. unfold raster, pixels.
    rewrite (flat_map_constant_length (c := Z.to_nat (Width r))).
    + rewrite length_range. lia.
    + intros y _. rewrite length_map. apply length_range.
  - intros HW HH. unfold raster, pixels, range. split; [|nia].
    replace (Z.to_nat (Height r)) with 0%nat by lia. reflexivity.
Qed.

Lemma raster_goroutines_witness :
  Z.of_nat (length (raster Examples.tracer1)) = pixels Examples.tracer1
  /\ raster (mkRaytracer Examples.scene_box (-2) (-3) 1 1) = [].
Proof.
  split.
  - apply (raster_goroutines Examples.tracer1); discriminate.
  - apply (raster_goroutines (mkRaytracer Examples.scene_box (-2) (-3) 1 1));
      reflexivity.
Defined.
